(** * Secure random source of kinetic-keys (randombytes backends)

    Shallow embedding of

      - wasm/dilithium5/src/randombytes.c       (test generator, Windows
        crypto service, getrandom syscall, /dev/urandom device file),
      - wasm/dilithium5/src/randombytes_wasm.c  (host bridge, void signature),
      - wasm/kyber1024/src/randombytes.c        (host bridge, int signature and
        randombytes_init),

    together with the properties of the fill contract stated in the
    specification. *)

From Stdlib Require Import ZArith List Lia Bool.
Import ListNotations.
Open Scope Z_scope.

(** ** Machine data *)

(** [uint32_t] arithmetic wraps modulo 2^32. *)
Definition wrap32 (z : Z) : Z := z mod 2 ^ 32.

(** Linear memory: an address is a [Z], a cell holds a byte (0..255). *)
Definition memory : Type := Z -> Z.

Definition store (m : memory) (a v : Z) : memory :=
  fun x => if x =? a then v else m x.

(** [store_range m a len src] is the memory after some agent (kernel, service
    or host) has put [src 0 .. src (len-1)] at [a .. a+len-1]. *)
Definition store_range (m : memory) (a len : Z) (src : Z -> Z) : memory :=
  fun x => if (a <=? x) && (x <? a + len) then src (x - a) else m x.

Fixpoint load_bytes (m : memory) (a : Z) (n : nat) : list Z :=
  match n with
  | O => []
  | S n' => m a :: load_bytes m (a + 1) n'
  end.

(** ** Observable interactions with the backend *)

Inductive action : Type :=
| CryptAcquireContext_call (ok : bool)
| CryptGenRandom_call (len out : Z) (ok : bool)
| CryptReleaseContext_call (ok : bool)
| getrandom_call (out outlen ret : Z)
| open_call (ret : Z)
| read_call (fd out outlen ret : Z)
| close_call (fd : Z)
| crypto_getRandomValues_call (len : Z)
| globalThis_crypto_getRandomValues_call (len : Z)
| require_crypto_randomBytes_call (len : Z)
| console_error_call
| abort_call.

(** ** Process state

    [rng_state] is the file-scope [static uint32_t rng_state] of the test
    generator and [fd] the function-scope [static int fd] of the device-file
    backend (a given build contains one backend only, so at most one of them
    is live).  [writes] records every range of the destination that was
    written, in order, as (address, length); [trace] records the backend
    interactions in order.  [heap_size] is the byte length of the linear
    memory of the WebAssembly module ([Module.HEAPU8.buffer]); only the host
    bridge consults it, when it builds its view of the destination. *)
Record process : Type := mkProcess {
  heap : memory;
  rng_state : Z;
  fd : Z;
  errno : Z;
  writes : list (Z * Z);
  trace : list action;
  heap_size : Z
}.

(** A fresh process; its linear memory has the 16 MiB an Emscripten module
    starts with by default. *)
Definition initial_process : process :=
  {| heap := fun _ => 0; rng_state := 12345; fd := -1; errno := 0;
     writes := []; trace := []; heap_size := 16777216 |}.

Definition set_rng_state (s : Z) (st : process) : process :=
  {| heap := heap st; rng_state := s; fd := fd st; errno := errno st;
     writes := writes st; trace := trace st; heap_size := heap_size st |}.

Definition set_fd (v : Z) (st : process) : process :=
  {| heap := heap st; rng_state := rng_state st; fd := v; errno := errno st;
     writes := writes st; trace := trace st; heap_size := heap_size st |}.

Definition set_errno (v : Z) (st : process) : process :=
  {| heap := heap st; rng_state := rng_state st; fd := fd st; errno := v;
     writes := writes st; trace := trace st; heap_size := heap_size st |}.

Definition emit (a : action) (st : process) : process :=
  {| heap := heap st; rng_state := rng_state st; fd := fd st;
     errno := errno st; writes := writes st; trace := trace st ++ [a];
     heap_size := heap_size st |}.

(** [out[i] = v] executed by the C code itself. *)
Definition poke (a v : Z) (st : process) : process :=
  {| heap := store (heap st) a v; rng_state := rng_state st; fd := fd st;
     errno := errno st; writes := writes st ++ [(a, 1)]; trace := trace st;
     heap_size := heap_size st |}.

(** [len] bytes put at [a] on behalf of the call by the kernel, the crypto
    service or the host. *)
Definition deliver (a len : Z) (src : Z -> Z) (st : process) : process :=
  {| heap := store_range (heap st) a len src; rng_state := rng_state st;
     fd := fd st; errno := errno st; writes := writes st ++ [(a, len)];
     trace := trace st; heap_size := heap_size st |}.




(** Result of a call as the caller sees it: it returns, or the process is
    terminated by [abort()], or the call is still waiting for an answer of
    the operating system when the observed answers end.  Only [Returned]
    hands anything to the caller. *)
Inductive outcome (A : Type) : Type :=
| Returned (a : A)
| Aborted (t : list action)
| Blocked (t : list action).
Arguments Returned {A} a.
Arguments Aborted {A} t.
Arguments Blocked {A} t.

(** ** Test generator (randombytes.c, [#ifdef __EMSCRIPTEN__]) *)

Module Lcg.

(** [rng_state * 1103515245 + 12345] in [uint32_t]. *)
Definition lcg_next (s : Z) : Z := wrap32 (s * 1103515245 + 12345).

(** Body of the [for] loop, lines 15-16. *)
Definition loop_body (out i : Z) (st : process) : process :=
  let st1 := set_rng_state (lcg_next (rng_state st)) st in
  poke (out + i) (Z.land (Z.shiftr (rng_state st1) 16) 255) st1.

(** [for (size_t i = 0; i < outlen; i++) body]: the loop leaves through its
    condition; [fuel] bounds the number of iterations and [outlen - i]
    iterations always suffice. *)
Fixpoint for_loop (fuel : nat) (out outlen i : Z) (st : process) : process :=
  match fuel with
  | O => st
  | S fuel' =>
      if i <? outlen
      then for_loop fuel' out outlen (i + 1) (loop_body out i st)
      else st
  end.

Definition randombytes (out outlen : Z) (st : process) : process :=
  for_loop (Z.to_nat outlen) out outlen 0 st.

(** The [k]-th byte (0-based) of the stream that starts at state [s]. *)
Definition stream_byte (s : Z) (k : nat) : Z :=
  Z.land (Z.shiftr (Nat.iter (S k) lcg_next s) 16) 255.

End Lcg.

(** ** Answers of the operating system

    The native backends are run against a script: the answers the operating
    system gives to the successive calls of the process.  [KFail e] is a
    failed call that sets [errno] to [e] (for the Windows service: a [FALSE]
    return); [KDone n data] is a successful call: for [open] the new
    descriptor is [n], for [getrandom] and [read] the kernel has [n] bytes at
    hand and hands over as many of them as the caller asked for, for the
    Windows service the call succeeds and fills what was asked. *)
Inductive kevent : Type :=
| KFail (e : Z)
| KDone (n : N) (data : Z -> Z).

Definition script : Type := list kevent.

Definition EINTR : Z := 4.

(** ** Platform crypto service (randombytes.c, [#ifdef _WIN32]) *)

Module Win.

Definition CryptAcquireContext (e : kevent) (st : process) : bool * process :=
  match e with
  | KFail _ => (false, emit (CryptAcquireContext_call false) st)
  | KDone _ _ => (true, emit (CryptAcquireContext_call true) st)
  end.

Definition CryptGenRandom (e : kevent) (len out : Z) (st : process)
  : bool * process :=
  match e with
  | KFail _ => (false, emit (CryptGenRandom_call len out false) st)
  | KDone _ data =>
      (true, emit (CryptGenRandom_call len out true) (deliver out len data st))
  end.

Definition CryptReleaseContext (e : kevent) (st : process) : bool * process :=
  match e with
  | KFail _ => (false, emit (CryptReleaseContext_call false) st)
  | KDone _ _ => (true, emit (CryptReleaseContext_call true) st)
  end.

(** [(outlen > 1048576) ? 1048576 : outlen], line 46. *)
Definition chunk_len (outlen : Z) : Z :=
  if 1048576 <? outlen then 1048576 else outlen.

(** [while(outlen > 0) { ... }], lines 45-52. *)
Fixpoint gen_loop (sc : script) (out outlen : Z) (st : process)
  : outcome (process * script) :=
  if 0 <? outlen then
    let len := chunk_len outlen in
    match sc with
    | [] => Blocked (trace st)
    | e :: rest =>
        let (ok, st1) := CryptGenRandom e len out st in
        if negb ok then Aborted (trace (emit abort_call st1))
        else gen_loop rest (out + len) (outlen - len) st1
    end
  else Returned (st, sc).

Definition randombytes (sc : script) (out outlen : Z) (st : process)
  : outcome (process * script) :=
  match sc with
  | [] => Blocked (trace st)
  | e :: sc1 =>
      let (ok, st1) := CryptAcquireContext e st in
      if negb ok then Aborted (trace (emit abort_call st1))
      else
        match gen_loop sc1 out outlen st1 with
        | Returned (st2, sc2) =>
            match sc2 with
            | [] => Blocked (trace st2)
            | e' :: sc3 =>
                let (ok', st3) := CryptReleaseContext e' st2 in
                if negb ok' then Aborted (trace (emit abort_call st3))
                else Returned (st3, sc3)
            end
        | Aborted t => Aborted t
        | Blocked t => Blocked t
        end
  end.

End Win.

(** ** getrandom syscall (randombytes.c, [__linux__ && SYS_getrandom]) *)

Module Linux.

(** [syscall(SYS_getrandom, out, outlen, 0)]: the return value; [errno] is
    set on failure. *)
Definition getrandom (e : kevent) (out outlen : Z) (st : process)
  : Z * process :=
  match e with
  | KFail en => (-1, emit (getrandom_call out outlen (-1)) (set_errno en st))
  | KDone n data =>
      let ret := Z.min (Z.of_N n) outlen in
      (ret, emit (getrandom_call out outlen ret) (deliver out ret data st))
  end.

(** [while(outlen > 0) { ... }], lines 61-70. *)
Fixpoint randombytes (sc : script) (out outlen : Z) (st : process)
  : outcome (process * script) :=
  if 0 <? outlen then
    match sc with
    | [] => Blocked (trace st)
    | e :: rest =>
        let (ret, st1) := getrandom e out outlen st in
        if (ret =? -1) && (errno st1 =? EINTR) then
          randombytes rest out outlen st1
        else if ret =? -1 then Aborted (trace (emit abort_call st1))
        else randombytes rest (out + ret) (outlen - ret) st1
    end
  else Returned (st, sc).

End Linux.

(** ** Device file (randombytes.c, last [#else]) *)

Module Posix.

(** [open("/dev/urandom", O_RDONLY)]. *)
Definition open (e : kevent) (st : process) : Z * process :=
  match e with
  | KFail en => (-1, emit (open_call (-1)) (set_errno en st))
  | KDone n _ => (Z.of_N n, emit (open_call (Z.of_N n)) st)
  end.

(** [read(fd, out, outlen)]. *)
Definition read (e : kevent) (fd_ out outlen : Z) (st : process)
  : Z * process :=
  match e with
  | KFail en =>
      (-1, emit (read_call fd_ out outlen (-1)) (set_errno en st))
  | KDone n data =>
      let ret := Z.min (Z.of_N n) outlen in
      (ret, emit (read_call fd_ out outlen ret) (deliver out ret data st))
  end.

(** [while(fd == -1) { fd = open(...); ... }], lines 77-83. *)
Fixpoint open_loop (sc : script) (st : process) : outcome (process * script) :=
  if fd st =? -1 then
    match sc with
    | [] => Blocked (trace st)
    | e :: rest =>
        let (r, st1) := open e st in
        let st2 := set_fd r st1 in
        if (fd st2 =? -1) && (errno st2 =? EINTR) then open_loop rest st2
        else if fd st2 =? -1 then Aborted (trace (emit abort_call st2))
        else open_loop rest st2
    end
  else Returned (st, sc).

(** [while(outlen > 0) { ret = read(fd, out, outlen); ... }], lines 85-94. *)
Fixpoint read_loop (sc : script) (out outlen : Z) (st : process)
  : outcome (process * script) :=
  if 0 <? outlen then
    match sc with
    | [] => Blocked (trace st)
    | e :: rest =>
        let (ret, st1) := read e (fd st) out outlen st in
        if (ret =? -1) && (errno st1 =? EINTR) then
          read_loop rest out outlen st1
        else if ret =? -1 then Aborted (trace (emit abort_call st1))
        else read_loop rest (out + ret) (outlen - ret) st1
    end
  else Returned (st, sc).

Definition randombytes (sc : script) (out outlen : Z) (st : process)
  : outcome (process * script) :=
  match open_loop sc st with
  | Returned (st1, sc1) => read_loop sc1 out outlen st1
  | Aborted t => Aborted t
  | Blocked t => Blocked t
  end.


End Posix.

(** ** Host bridge (randombytes_wasm.c and kyber1024/src/randombytes.c) *)

Inductive js_completion (A : Type) : Type :=
| Normal (v : A)
| Throw.
Arguments Normal {A} v.
Arguments Throw {A}.

(** The embedding JavaScript environment.  A field is [None] when the guard
    of the corresponding branch is false ([typeof crypto === 'undefined'] or
    no [getRandomValues] on it, and so on).  When present, the capability is
    called on a view of [len] bytes and either throws or has filled the whole
    view, byte [j] of it with [bytes j]; for [require('crypto')] the [len]
    bytes of [randomBytes(len)] are copied into the view by [array.set]. *)
Record host : Type := mkHost {
  crypto_getRandomValues : option (Z -> js_completion (Z -> Z));
  globalThis_crypto_getRandomValues : option (Z -> js_completion (Z -> Z));
  require_crypto_randomBytes : option (Z -> js_completion (Z -> Z))
}.

Module Wasm.

(** [new Uint8Array(Module.HEAPU8.buffer, buf, len)]: the constructor
    throws a [RangeError] unless offset and length are non-negative and the
    range [buf .. buf+len-1] lies within the buffer. *)
Definition view_in_heap (buf len : Z) (st : process) : bool :=
  (0 <=? buf) && (0 <=? len) && (buf + len <=? heap_size st).

(** The body of the [try] block: the final state and whether the block
    completed without an exception.  The view is built first; the
    capabilities are looked at only once it exists. *)
Definition try_block (h : host) (buf len : Z) (st : process)
  : process * bool :=
  if negb (view_in_heap buf len st) then (st, false)
  else
  match crypto_getRandomValues h with
  | Some getRandomValues =>
      let st1 := emit (crypto_getRandomValues_call len) st in
      match getRandomValues len with
      | Normal bytes => (deliver buf len bytes st1, true)
      | Throw => (st1, false)
      end
  | None =>
      match globalThis_crypto_getRandomValues h with
      | Some getRandomValues =>
          let st1 := emit (globalThis_crypto_getRandomValues_call len) st in
          match getRandomValues len with
          | Normal bytes => (deliver buf len bytes st1, true)
          | Throw => (st1, false)
          end
      | None =>
          match require_crypto_randomBytes h with
          | Some randomBytes =>
              let st1 := emit (require_crypto_randomBytes_call len) st in
              match randomBytes len with
              | Normal bytes => (deliver buf len bytes st1, true)
              | Throw => (st1, false)
              end
          | None => (st, false)
          end
      end
  end.

(** [EM_JS(void, crypto_get_random_values, (uint8_t* buf, size_t len), ...)]:
    the [catch] clause logs and aborts. *)
Definition crypto_get_random_values (h : host) (buf len : Z) (st : process)
  : outcome process :=
  let (st1, completed) := try_block h buf len st in
  if completed then Returned st1
  else Aborted (trace (emit abort_call (emit console_error_call st1))).

(** randombytes_wasm.c, lines 35-38. *)
Definition randombytes (h : host) (out outlen : Z) (st : process)
  : outcome process :=
  crypto_get_random_values h out outlen st.

End Wasm.

Module Kyber.

(** [(size_t)xlen]: [unsigned long long] has 64 bits, [size_t] has 32 bits on
    the wasm32 target the file is compiled for. *)
Definition size_t_of_ull (xlen : Z) : Z := xlen mod 2 ^ 32.

(** [int randombytes(unsigned char *x, unsigned long long xlen)]: the
    returned status and the state. *)
Definition randombytes (h : host) (x xlen : Z) (st : process)
  : outcome (Z * process) :=
  match Wasm.crypto_get_random_values h x (size_t_of_ull xlen) st with
  | Returned st1 => Returned (0, st1)
  | Aborted t => Aborted t
  | Blocked t => Blocked t
  end.

(** [void randombytes_init(entropy_input, personalization_string,
    security_strength)]: the three parameters are cast to [void]. *)
Definition randombytes_init
  (entropy_input personalization_string security_strength : Z)
  (st : process) : process :=
  st.

End Kyber.

(** * Vocabulary of the statements *)

(** [tiles ws a b]: the ranges of [ws] follow one another without gap or
    overlap from [a] up to [b]. *)
Fixpoint tiles (ws : list (Z * Z)) (a b : Z) : Prop :=
  match ws with
  | [] => a = b
  | (x, l) :: rest => x = a /\ 0 <= l /\ tiles rest (a + l) b
  end.


Definition outcome_trace (o : outcome (process * script)) : list action :=
  match o with
  | Returned (st, _) => trace st
  | Aborted t => t
  | Blocked t => t
  end.


(** What a loop that returned has done to the destination: the new ranges of
    the write log tile [out .. out+L-1] and the rest of memory is as
    before. *)
Definition loop_filled (out L : Z) (st st' : process) : Prop :=
  (exists ws, writes st' = writes st ++ ws /\ tiles ws out (out + L)) /\
  (forall a, a < out \/ out + L <= a -> heap st' a = heap st a) /\
  fd st' = fd st /\ rng_state st' = rng_state st.

Definition is_open_ok (a : action) : bool :=
  match a with
  | open_call r => negb (r =? -1)
  | _ => false
  end.

Definition is_close (a : action) : bool :=
  match a with
  | close_call _ => true
  | _ => false
  end.

Definition is_open (a : action) : bool :=
  match a with
  | open_call _ => true
  | _ => false
  end.

(** Number of successful [open] calls, of [close] calls and of [open] calls
    in a trace. *)
Definition opened (t : list action) : nat := length (filter is_open_ok t).
Definition closed (t : list action) : nat := length (filter is_close t).
Definition open_attempts (t : list action) : nat :=
  length (filter is_open t).



(** The [CryptGenRandom] calls of a trace, as (length, address). *)
Definition gen_calls (t : list action) : list (Z * Z) :=
  flat_map (fun a => match a with
                     | CryptGenRandom_call len out _ => [(len, out)]
                     | _ => []
                     end) t.

Definition gen_ok (c : Z * Z) : action :=
  CryptGenRandom_call (fst c) (snd c) true.

Definition chunk_bounded (c : Z * Z) : Prop := 0 < fst c <= 1048576.

(** Serving a request through one host capability [f], whose call shows in
    the trace as [call len]: the bytes of the host land in the view, or the
    exception is logged and the process aborts. *)
Definition via_capability (f : Z -> js_completion (Z -> Z))
  (call : Z -> action) (buf len : Z) (st : process) : outcome process :=
  match f len with
  | Normal bytes => Returned (deliver buf len bytes (emit (call len) st))
  | Throw => Aborted (trace st ++ [call len; console_error_call; abort_call])
  end.

(** [KFail EINTR]: the answer of a call interrupted by a signal. *)
Definition is_eintr (e : kevent) : bool :=
  match e with
  | KFail en => en =? EINTR
  | KDone _ _ => false
  end.

(** The script without its signal interruptions. *)
Definition drop_eintr (sc : script) : script :=
  filter (fun e => negb (is_eintr e)) sc.

(** Two states that agree on all the program data: memory, write log,
    descriptor and generator state ([errno] and the trace may differ). *)
Definition same_data (st1 st2 : process) : Prop :=
  heap st1 = heap st2 /\ writes st1 = writes st2 /\
  fd st1 = fd st2 /\ rng_state st1 = rng_state st2.

(** Two runs, the second one on the script without interruptions, that end
    the same way: both return with the same data and the same answers left,
    or both abort, or both are still waiting. *)
Definition same_result (o1 o2 : outcome (process * script)) : Prop :=
  match o1, o2 with
  | Returned (s1, r1), Returned (s2, r2) =>
      same_data s1 s2 /\ r2 = drop_eintr r1
  | Aborted _, Aborted _ => True
  | Blocked _, Blocked _ => True
  | _, _ => False
  end.

(** A [getrandom] or [read] call that asks for exactly the part of the
    destination [base .. stop-1] that is still missing, and got back an
    error or at most what it asked for. *)
Definition asks_for_tail (base stop : Z) (a : action) : Prop :=
  match a with
  | getrandom_call o l r | read_call _ o l r =>
      base <= o /\ 0 < l /\ o + l = stop /\ (r = -1 \/ 0 <= r <= l)
  | _ => True
  end.

(** Every [read] of a trace is made on descriptor [d]. *)
Definition reads_from (d : Z) (a : action) : Prop :=
  match a with
  | read_call f _ _ _ => f = d
  | _ => True
  end.

(** The service calls a request of [L] bytes at [out] is cut into: call [j]
    is for the chunk that starts [j * 1048576] bytes into the destination. *)
Definition chunk_plan (out L : Z) : list (Z * Z) :=
  map (fun j => (Z.min 1048576 (L - Z.of_nat j * 1048576),
                 out + Z.of_nat j * 1048576))
      (seq 0 (Z.to_nat ((L + 1048575) / 1048576))).

(** The actions of the open loop. *)
Definition open_or_abort (a : action) : Prop :=
  match a with
  | open_call _ | abort_call => True
  | _ => False
  end.

(** A service call that succeeds. *)
Definition succeeds (e : kevent) : bool :=
  match e with
  | KFail _ => false
  | KDone _ _ => true
  end.

(** * Properties *)

(** ** Memory and write logs *)

Lemma store_range_inside (m : memory) (a len : Z) (src : Z -> Z) (x : Z) :
  a <= x < a + len -> store_range m a len src x = src (x - a).
Proof.
  intros Hx. unfold store_range.
  replace (a <=? x) with true by (symmetry; apply Z.leb_le; lia).
  replace (x <? a + len) with true by (symmetry; apply Z.ltb_lt; lia).
  reflexivity.
Qed.

Lemma store_range_outside (m : memory) (a len : Z) (src : Z -> Z) (x : Z) :
  x < a \/ a + len <= x -> store_range m a len src x = m x.
Proof.
  intros Hx. unfold store_range.
  destruct (a <=? x) eqn:E1; [|reflexivity].
  destruct (x <? a + len) eqn:E2; [|reflexivity].
  apply Z.leb_le in E1. apply Z.ltb_lt in E2. lia.
Qed.

Lemma load_bytes_nth (m : memory) (n : nat) :
  forall a, load_bytes m a n = map (fun k => m (a + Z.of_nat k)) (seq 0 n).
Proof.
  induction n as [|n IH]; intros a; simpl; [reflexivity|].
  rewrite Z.add_0_r. f_equal.
  rewrite IH, <- seq_shift, map_map.
  apply map_ext. intros k. f_equal. lia.
Qed.

Lemma load_bytes_length (m : memory) (n : nat) (a : Z) :
  length (load_bytes m a n) = n.
Proof. rewrite load_bytes_nth, length_map, length_seq. reflexivity. Qed.





(** ** Test generator *)

Lemma iter_lcg_shift (n : nat) (s : Z) :
  Nat.iter n Lcg.lcg_next (Lcg.lcg_next s) = Nat.iter (S n) Lcg.lcg_next s.
Proof.
  induction n as [|n IH]; [reflexivity|].
  simpl in *. rewrite IH. reflexivity.
Qed.

Lemma stream_byte_shift (s : Z) (k : nat) :
  Lcg.stream_byte (Lcg.lcg_next s) k = Lcg.stream_byte s (S k).
Proof. unfold Lcg.stream_byte. rewrite iter_lcg_shift. reflexivity. Qed.

Lemma stream_byte_iter (m : nat) (s : Z) (k : nat) :
  Lcg.stream_byte (Nat.iter m Lcg.lcg_next s) k = Lcg.stream_byte s (m + k).
Proof.
  revert s. induction m as [|m IH]; intros s; [reflexivity|].
  rewrite <- iter_lcg_shift, IH, stream_byte_shift. reflexivity.
Qed.

(** The loop never stops for lack of fuel: any fuel of at least [outlen - i]
    gives the same state. *)
Lemma for_loop_fuel (fuel : nat) :
  forall out outlen i st,
    (Z.to_nat (outlen - i) <= fuel)%nat ->
    Lcg.for_loop fuel out outlen i st
    = Lcg.for_loop (Z.to_nat (outlen - i)) out outlen i st.
Proof.
  induction fuel as [|fuel IH]; intros out outlen i st Hf.
  - replace (Z.to_nat (outlen - i)) with 0%nat by lia. reflexivity.
  - simpl. destruct (i <? outlen) eqn:E.
    + apply Z.ltb_lt in E.
      replace (Z.to_nat (outlen - i)) with (S (Z.to_nat (outlen - (i + 1))))
        by lia.
      simpl. replace (i <? outlen) with true by (symmetry; apply Z.ltb_lt; lia).
      apply IH. lia.
    + apply Z.ltb_ge in E.
      replace (Z.to_nat (outlen - i)) with 0%nat by lia. reflexivity.
Qed.

Lemma for_loop_spec (n : nat) :
  forall out outlen i st,
    i + Z.of_nat n <= outlen ->
    let st' := Lcg.for_loop n out outlen i st in
    rng_state st' = Nat.iter n Lcg.lcg_next (rng_state st) /\
    (forall a, heap st' a =
               if (out + i <=? a) && (a <? out + i + Z.of_nat n)
               then Lcg.stream_byte (rng_state st) (Z.to_nat (a - (out + i)))
               else heap st a) /\
    (exists ws, writes st' = writes st ++ ws /\
                tiles ws (out + i) (out + i + Z.of_nat n)) /\
    fd st' = fd st /\ errno st' = errno st /\ trace st' = trace st.
Proof.
  induction n as [|n IH]; intros out outlen i st Hn; cbn zeta.
  - simpl. repeat split; try reflexivity.
    + intros a. destruct (out + i <=? a) eqn:E1, (a <? out + i + 0) eqn:E2;
        simpl; try reflexivity.
      apply Z.leb_le in E1. apply Z.ltb_lt in E2. lia.
    + exists []. rewrite app_nil_r. simpl. split; [reflexivity|lia].
  - simpl Lcg.for_loop.
    replace (i <? outlen) with true by (symmetry; apply Z.ltb_lt; lia).
    specialize (IH out outlen (i + 1) (Lcg.loop_body out i st)).
    cbn zeta in IH.
    destruct IH as (Hs & Hh & (ws & Hw & Ht) & Hfd & He & Htr); [lia|].
    repeat split.
    + rewrite Hs. simpl rng_state. apply iter_lcg_shift.
    + intros a. rewrite Hh. simpl rng_state. simpl heap. unfold store.
      destruct (Z.eq_dec a (out + i)) as [->|Hne].
      * replace (out + (i + 1) <=? out + i) with false
          by (symmetry; apply Z.leb_gt; lia).
        replace (out + i <=? out + i) with true
          by (symmetry; apply Z.leb_le; lia).
        replace (out + i <? out + i + Z.of_nat (S n)) with true
          by (symmetry; apply Z.ltb_lt; lia).
        simpl. rewrite Z.eqb_refl, Z.sub_diag. reflexivity.
      * replace (a =? out + i) with false by (symmetry; apply Z.eqb_neq; lia).
        destruct (out + (i + 1) <=? a) eqn:E1.
        -- apply Z.leb_le in E1.
           replace (out + i <=? a) with true by (symmetry; apply Z.leb_le; lia).
           replace (out + (i + 1) + Z.of_nat n) with (out + i + Z.of_nat (S n))
             by lia.
           destruct (a <? out + i + Z.of_nat (S n)); simpl; [|reflexivity].
           rewrite stream_byte_shift. f_equal. lia.
        -- apply Z.leb_gt in E1.
           replace (out + i <=? a) with false
             by (symmetry; apply Z.leb_gt; lia).
           reflexivity.
    + exists ((out + i, 1) :: ws). split.
      * rewrite Hw. simpl writes. rewrite <- app_assoc. reflexivity.
      * replace (out + i + Z.of_nat (S n)) with (out + (i + 1) + Z.of_nat n)
          by lia.
        cbn [tiles]. split; [reflexivity|]. split; [lia|].
        replace (out + i + 1) with (out + (i + 1)) by lia.
        exact Ht.
    + rewrite Hfd. reflexivity.
    + rewrite He. reflexivity.
    + rewrite Htr. reflexivity.
Qed.

Lemma lcg_randombytes_spec (out L : Z) (st : process) :
  0 <= L ->
  let st' := Lcg.randombytes out L st in
  rng_state st' = Nat.iter (Z.to_nat L) Lcg.lcg_next (rng_state st) /\
  (forall a, heap st' a =
             if (out <=? a) && (a <? out + L)
             then Lcg.stream_byte (rng_state st) (Z.to_nat (a - out))
             else heap st a) /\
  (exists ws, writes st' = writes st ++ ws /\ tiles ws out (out + L)) /\
  fd st' = fd st /\ errno st' = errno st /\ trace st' = trace st.
Proof.
  intros HL. unfold Lcg.randombytes.
  pose proof (for_loop_spec (Z.to_nat L) out L 0 st) as H.
  rewrite Z2Nat.id, !Z.add_0_r in H by exact HL.
  apply H. lia.
Qed.

Lemma lcg_randombytes_output (out L : Z) (st : process) :
  0 <= L ->
  load_bytes (heap (Lcg.randombytes out L st)) out (Z.to_nat L)
  = map (Lcg.stream_byte (rng_state st)) (seq 0 (Z.to_nat L)).
Proof.
  intros HL. rewrite load_bytes_nth. apply map_ext_in. intros k Hk.
  apply in_seq in Hk.
  destruct (lcg_randombytes_spec out L st HL) as (_ & Hh & _).
  rewrite Hh.
  replace (out <=? out + Z.of_nat k) with true
    by (symmetry; apply Z.leb_le; lia).
  replace (out + Z.of_nat k <? out + L) with true
    by (symmetry; apply Z.ltb_lt; lia).
  simpl. f_equal. lia.
Qed.

Lemma lcg_randombytes_neg (out L : Z) (st : process) :
  L <= 0 -> Lcg.randombytes out L st = st.
Proof.
  intros HL. unfold Lcg.randombytes.
  replace (Z.to_nat L) with 0%nat by lia. reflexivity.
Qed.

(** C2.  Test generator: byte [i] (0-based) of a fill of [L] bytes is bits
    16-23 of the state reached after [i+1] applications of
    [s' = (s * 1103515245 + 12345) mod 2^32] to the process-wide state at the
    call; that state is 12345 in a fresh process, and the first 16 bytes of a
    fresh process are the fixed sequence below. *)
Theorem lcg_stream_bytes (out L : Z) (st : process) (i : nat)
  (Hi : Z.of_nat i < L) :
  heap (Lcg.randombytes out L st) (out + Z.of_nat i)
  = Z.land
      (Z.shiftr
         (Nat.iter (S i) (fun s => (s * 1103515245 + 12345) mod 2 ^ 32)
            (rng_state st)) 16) 255
  /\ rng_state (Lcg.randombytes out L st)
     = Nat.iter (Z.to_nat L) (fun s => (s * 1103515245 + 12345) mod 2 ^ 32)
         (rng_state st)
  /\ rng_state initial_process = 12345
  /\ load_bytes (heap (Lcg.randombytes out 16 initial_process)) out 16
     = [220; 4; 101; 170; 31; 173; 29; 90; 218; 229; 172; 27; 30; 95; 19; 112].
Proof.
  assert (HL : 0 <= L) by lia.
  destruct (lcg_randombytes_spec out L st HL) as (Hs & Hh & _).
  split; [|split; [exact Hs|split; [reflexivity|]]].
  - rewrite Hh.
    replace (out <=? out + Z.of_nat i) with true
      by (symmetry; apply Z.leb_le; lia).
    replace (out + Z.of_nat i <? out + L) with true
      by (symmetry; apply Z.ltb_lt; lia).
    cbn [andb]. replace (Z.to_nat (out + Z.of_nat i - out)) with i by lia.
    reflexivity.
  - change 16%nat with (Z.to_nat 16).
    rewrite lcg_randombytes_output by lia. vm_compute. reflexivity.
Qed.

Lemma lcg_stream_bytes_witness :
  Z.of_nat 2 < 4 /\
  heap (Lcg.randombytes 0 4 initial_process) (0 + Z.of_nat 2) = 101.
Proof.
  split; [reflexivity|].
  exact (proj1 (lcg_stream_bytes 0 4 initial_process 2 eq_refl)).
Defined.

(** C9.  Test generator: the bytes written and the final generator state are
    functions of the generator state and the length alone; whatever the
    destination (and the rest of memory) held before the call has no
    influence. *)
Theorem lcg_ignores_buffer (out L : Z) (st1 st2 : process)
  (Hs : rng_state st1 = rng_state st2) :
  load_bytes (heap (Lcg.randombytes out L st1)) out (Z.to_nat L)
  = load_bytes (heap (Lcg.randombytes out L st2)) out (Z.to_nat L)
  /\ rng_state (Lcg.randombytes out L st1)
     = rng_state (Lcg.randombytes out L st2).
Proof.
  destruct (Z.le_gt_cases 0 L) as [HL|HL].
  - rewrite !lcg_randombytes_output by exact HL.
    destruct (lcg_randombytes_spec out L st1 HL) as (H1 & _).
    destruct (lcg_randombytes_spec out L st2 HL) as (H2 & _).
    rewrite H1, H2, Hs. split; reflexivity.
  - rewrite !lcg_randombytes_neg by lia.
    replace (Z.to_nat L) with 0%nat by lia. split; [reflexivity|exact Hs].
Qed.

Lemma lcg_ignores_buffer_witness :
  rng_state initial_process
  = rng_state (poke 0 77 (poke 1 99 initial_process)) /\
  load_bytes (heap (Lcg.randombytes 0 3 initial_process)) 0 (Z.to_nat 3)
  = load_bytes
      (heap (Lcg.randombytes 0 3 (poke 0 77 (poke 1 99 initial_process))))
      0 (Z.to_nat 3).
Proof.
  split; [reflexivity|].
  exact (proj1 (lcg_ignores_buffer 0 3 initial_process
                  (poke 0 77 (poke 1 99 initial_process)) eq_refl)).
Defined.

(** C10.  Test generator: a fill of [m] bytes followed by a fill of [n]
    bytes yields, one output after the other, the bytes of a single fill of
    [m + n] bytes from the same starting state, and both ways end in the same
    generator state. *)
Theorem lcg_stream_split (out1 out2 out m n : Z) (st : process)
  (Hm : 0 <= m) (Hn : 0 <= n) :
  let st1 := Lcg.randombytes out1 m st in
  let st2 := Lcg.randombytes out2 n st1 in
  let st' := Lcg.randombytes out (m + n) st in
  load_bytes (heap st1) out1 (Z.to_nat m)
    ++ load_bytes (heap st2) out2 (Z.to_nat n)
  = load_bytes (heap st') out (Z.to_nat (m + n))
  /\ rng_state st2 = rng_state st'.
Proof.
  cbn zeta.
  rewrite !lcg_randombytes_output by lia.
  destruct (lcg_randombytes_spec out1 m st Hm) as (H1 & _).
  destruct (lcg_randombytes_spec out2 n (Lcg.randombytes out1 m st) Hn)
    as (H2 & _).
  destruct (lcg_randombytes_spec out (m + n) st) as (H3 & _); [lia|].
  rewrite H2, H3, H1. split.
  - rewrite Z2Nat.inj_add by lia. rewrite seq_app, map_app. f_equal.
    rewrite Nat.add_0_l.
    replace (seq (Z.to_nat m) (Z.to_nat n))
      with (map (fun k => (Z.to_nat m + k)%nat) (seq 0 (Z.to_nat n))).
    + rewrite map_map. apply map_ext. intros k. apply stream_byte_iter.
    + clear. generalize (Z.to_nat m) as a, (Z.to_nat n) as b. intros a b.
      revert a. induction b as [|b IH]; intros a; [reflexivity|].
      simpl. rewrite Nat.add_0_r. f_equal.
      rewrite <- seq_shift, map_map.
      rewrite <- (IH (S a)). apply map_ext. intros k. lia.
  - rewrite Z2Nat.inj_add by lia. rewrite Nat.add_comm.
    symmetry. apply Nat.iter_add.
Qed.

Lemma lcg_stream_split_witness :
  0 <= 3 /\ 0 <= 5 /\
  load_bytes (heap (Lcg.randombytes 10 3 initial_process)) 10 (Z.to_nat 3)
    ++ load_bytes
         (heap (Lcg.randombytes 10 5 (Lcg.randombytes 10 3 initial_process)))
         10 (Z.to_nat 5)
  = load_bytes (heap (Lcg.randombytes 40 (3 + 5) initial_process)) 40
      (Z.to_nat (3 + 5)).
Proof.
  split; [lia|]. split; [lia|].
  exact (proj1 (lcg_stream_split 10 10 40 3 5 initial_process
                  ltac:(lia) ltac:(lia))).
Defined.

(** ** Loops over the answers of the operating system *)

Ltac zbool :=
  repeat match goal with
    | H : (_ <=? _) = true |- _ => apply Z.leb_le in H
    | H : (_ <=? _) = false |- _ => apply Z.leb_gt in H
    | H : (_ <? _) = true |- _ => apply Z.ltb_lt in H
    | H : (_ <? _) = false |- _ => apply Z.ltb_ge in H
    | H : (_ =? _) = true |- _ => apply Z.eqb_eq in H
    | H : (_ =? _) = false |- _ => apply Z.eqb_neq in H
    end.

(** [getrandom] and [read] hand over between 0 and [outlen] bytes when they
    succeed, so that [outlen -= ret] never wraps around. *)
Lemma kernel_ret_range (n : N) (outlen : Z) :
  0 < outlen -> 0 <= Z.min (Z.of_N n) outlen <= outlen.
Proof. intros H. lia. Qed.

Lemma linux_loop_done (sc : script) (out outlen : Z) (st : process) :
  outlen <= 0 -> Linux.randombytes sc out outlen st = Returned (st, sc).
Proof.
  intros H. destruct sc; simpl;
    replace (0 <? outlen) with false by (symmetry; apply Z.ltb_ge; lia);
    reflexivity.
Qed.

Lemma linux_loop_eintr (rest : script) (out outlen : Z) (st : process) :
  0 < outlen ->
  Linux.randombytes (KFail EINTR :: rest) out outlen st
  = Linux.randombytes rest out outlen
      (emit (getrandom_call out outlen (-1)) (set_errno EINTR st)).
Proof.
  intros H. cbn [Linux.randombytes Linux.getrandom].
  replace (0 <? outlen) with true by (symmetry; apply Z.ltb_lt; lia).
  reflexivity.
Qed.

Lemma linux_loop_error (rest : script) (out outlen en : Z) (st : process) :
  0 < outlen -> en <> EINTR ->
  Linux.randombytes (KFail en :: rest) out outlen st
  = Aborted (trace st ++ [getrandom_call out outlen (-1); abort_call]).
Proof.
  intros H Hen. cbn [Linux.randombytes Linux.getrandom].
  replace (0 <? outlen) with true by (symmetry; apply Z.ltb_lt; lia).
  cbn [emit set_errno errno trace].
  replace (en =? EINTR) with false by (symmetry; apply Z.eqb_neq; exact Hen).
  cbn. rewrite <- app_assoc. reflexivity.
Qed.

Lemma linux_loop_data (rest : script) (out outlen : Z) (n : N)
  (data : Z -> Z) (st : process) :
  0 < outlen ->
  Linux.randombytes (KDone n data :: rest) out outlen st
  = Linux.randombytes rest (out + Z.min (Z.of_N n) outlen)
      (outlen - Z.min (Z.of_N n) outlen)
      (emit (getrandom_call out outlen (Z.min (Z.of_N n) outlen))
         (deliver out (Z.min (Z.of_N n) outlen) data st)).
Proof.
  intros H. cbn [Linux.randombytes Linux.getrandom].
  replace (0 <? outlen) with true by (symmetry; apply Z.ltb_lt; lia).
  replace (Z.min (Z.of_N n) outlen =? -1) with false
    by (symmetry; apply Z.eqb_neq; lia).
  reflexivity.
Qed.

Lemma read_loop_done (sc : script) (out outlen : Z) (st : process) :
  outlen <= 0 -> Posix.read_loop sc out outlen st = Returned (st, sc).
Proof.
  intros H. destruct sc; simpl;
    replace (0 <? outlen) with false by (symmetry; apply Z.ltb_ge; lia);
    reflexivity.
Qed.

Lemma read_loop_eintr (rest : script) (out outlen : Z) (st : process) :
  0 < outlen ->
  Posix.read_loop (KFail EINTR :: rest) out outlen st
  = Posix.read_loop rest out outlen
      (emit (read_call (fd st) out outlen (-1)) (set_errno EINTR st)).
Proof.
  intros H. cbn [Posix.read_loop Posix.read].
  replace (0 <? outlen) with true by (symmetry; apply Z.ltb_lt; lia).
  reflexivity.
Qed.

Lemma read_loop_error (rest : script) (out outlen en : Z) (st : process) :
  0 < outlen -> en <> EINTR ->
  Posix.read_loop (KFail en :: rest) out outlen st
  = Aborted (trace st ++ [read_call (fd st) out outlen (-1); abort_call]).
Proof.
  intros H Hen. cbn [Posix.read_loop Posix.read].
  replace (0 <? outlen) with true by (symmetry; apply Z.ltb_lt; lia).
  cbn [emit set_errno errno trace].
  replace (en =? EINTR) with false by (symmetry; apply Z.eqb_neq; exact Hen).
  cbn. rewrite <- app_assoc. reflexivity.
Qed.

Lemma read_loop_data (rest : script) (out outlen : Z) (n : N)
  (data : Z -> Z) (st : process) :
  0 < outlen ->
  Posix.read_loop (KDone n data :: rest) out outlen st
  = Posix.read_loop rest (out + Z.min (Z.of_N n) outlen)
      (outlen - Z.min (Z.of_N n) outlen)
      (emit (read_call (fd st) out outlen (Z.min (Z.of_N n) outlen))
         (deliver out (Z.min (Z.of_N n) outlen) data st)).
Proof.
  intros H. cbn [Posix.read_loop Posix.read].
  replace (0 <? outlen) with true by (symmetry; apply Z.ltb_lt; lia).
  replace (Z.min (Z.of_N n) outlen =? -1) with false
    by (symmetry; apply Z.eqb_neq; lia).
  reflexivity.
Qed.

(** C3.  getrandom and device-file loops, one iteration with [outlen > 0]
    bytes still missing: an [EINTR] failure leads to the same call again
    (same cursor, same remaining length, memory and write log untouched);
    any other failure aborts at once; a successful call that returned [ret]
    bytes moves the cursor forward by [ret] and shortens the remaining length
    by [ret], the [ret] bytes having been put at the old cursor. *)
Theorem syscall_loop_iteration (rest : script) (out outlen : Z)
  (st : process) (Hpos : 0 < outlen) :
  (let st1 := emit (getrandom_call out outlen (-1)) (set_errno EINTR st) in
   Linux.randombytes (KFail EINTR :: rest) out outlen st
   = Linux.randombytes rest out outlen st1
   /\ heap st1 = heap st /\ writes st1 = writes st)
  /\ (let st1 := emit (read_call (fd st) out outlen (-1))
                   (set_errno EINTR st) in
      Posix.read_loop (KFail EINTR :: rest) out outlen st
      = Posix.read_loop rest out outlen st1
      /\ heap st1 = heap st /\ writes st1 = writes st /\ fd st1 = fd st)
  /\ (forall en, en <> EINTR ->
        Linux.randombytes (KFail en :: rest) out outlen st
        = Aborted (trace st ++ [getrandom_call out outlen (-1); abort_call])
        /\ Posix.read_loop (KFail en :: rest) out outlen st
           = Aborted
               (trace st ++ [read_call (fd st) out outlen (-1); abort_call]))
  /\ (forall n data,
        let ret := Z.min (Z.of_N n) outlen in
        0 <= ret <= outlen
        /\ Linux.randombytes (KDone n data :: rest) out outlen st
           = Linux.randombytes rest (out + ret) (outlen - ret)
               (emit (getrandom_call out outlen ret)
                  (deliver out ret data st))
        /\ Posix.read_loop (KDone n data :: rest) out outlen st
           = Posix.read_loop rest (out + ret) (outlen - ret)
               (emit (read_call (fd st) out outlen ret)
                  (deliver out ret data st))
        /\ writes (deliver out ret data st) = writes st ++ [(out, ret)]).
Proof.
  split; [|split; [|split]].
  - cbn zeta. split; [apply linux_loop_eintr; exact Hpos|]. split; reflexivity.
  - cbn zeta. split; [apply read_loop_eintr; exact Hpos|].
    repeat split; reflexivity.
  - intros en Hen. split.
    + apply linux_loop_error; assumption.
    + apply read_loop_error; assumption.
  - intros n data. cbn zeta. split; [apply kernel_ret_range; exact Hpos|].
    split; [apply linux_loop_data; exact Hpos|].
    split; [apply read_loop_data; exact Hpos|reflexivity].
Qed.

Lemma syscall_loop_iteration_witness :
  0 < 8 /\
  Linux.randombytes [KFail EINTR; KDone 8 (fun j => j + 1)] 100 8
    initial_process
  = Linux.randombytes [KDone 8 (fun j => j + 1)] 100 8
      (emit (getrandom_call 100 8 (-1)) (set_errno EINTR initial_process)).
Proof.
  split; [lia|].
  exact (proj1 (proj1 (syscall_loop_iteration [KDone 8 (fun j => j + 1)]
                         100 8 initial_process ltac:(lia)))).
Defined.

(** A getrandom run: one interruption, then 3 of the 5 bytes, then the
    kernel offers 9 bytes and the remaining 2 are taken. *)
Example getrandom_partial_reads :
  match
    Linux.randombytes
      [KFail EINTR; KDone 3 (fun j => j + 10); KDone 9 (fun j => j + 20)]
      100 5 initial_process
  with
  | Returned (st', rest) =>
      load_bytes (heap st') 99 7 = [0; 10; 11; 12; 20; 21; 0] /\
      writes st' = [(100, 3); (103, 2)] /\
      trace st' = [getrandom_call 100 5 (-1); getrandom_call 100 5 3;
                   getrandom_call 103 2 2] /\
      rest = []
  | _ => False
  end.
Proof. vm_compute. repeat split. Qed.

(** A device-file run that dies on an I/O error after a partial read. *)
Example device_read_error_aborts :
  Posix.randombytes
    [KDone 3 (fun _ => 0); KDone 2 (fun j => j + 10); KFail 5;
     KDone 9 (fun j => j + 20)]
    100 5 initial_process
  = Aborted [open_call 3; read_call 3 100 5 2; read_call 3 102 3 (-1);
             abort_call].
Proof. vm_compute. reflexivity. Qed.

Lemma loop_filled_nil (out : Z) (st : process) : loop_filled out 0 st st.
Proof.
  repeat split; try reflexivity.
  exists []. rewrite app_nil_r. simpl. split; [reflexivity|lia].
Qed.

Lemma loop_filled_retry (out L : Z) (st st1 st' : process) :
  writes st1 = writes st -> heap st1 = heap st -> fd st1 = fd st ->
  rng_state st1 = rng_state st ->
  loop_filled out L st1 st' -> loop_filled out L st st'.
Proof.
  intros Hw Hh Hf Hr ((ws & Hws & Ht) & Hfr & Hfd & Hrs).
  repeat split.
  - exists ws. rewrite Hws, Hw. split; [reflexivity|exact Ht].
  - intros a Ha. rewrite (Hfr a Ha), Hh. reflexivity.
  - congruence.
  - congruence.
Qed.

Lemma loop_filled_step (out L r : Z) (data : Z -> Z) (act : action)
  (st st' : process) :
  0 <= r <= L ->
  loop_filled (out + r) (L - r) (emit act (deliver out r data st)) st' ->
  loop_filled out L st st'.
Proof.
  intros Hr ((ws & Hws & Ht) & Hfr & Hfd & Hrs).
  repeat split.
  - exists ((out, r) :: ws). split.
    + rewrite Hws. cbn [emit deliver writes]. rewrite <- app_assoc.
      reflexivity.
    + cbn [tiles]. split; [reflexivity|]. split; [lia|].
      replace (out + L) with (out + r + (L - r)) by lia. exact Ht.
  - intros a Ha. rewrite Hfr by lia. cbn [emit deliver heap].
    apply store_range_outside. lia.
  - exact Hfd.
  - exact Hrs.
Qed.

Lemma linux_loop_returned (sc : script) :
  forall out L st st' rest,
    0 <= L ->
    Linux.randombytes sc out L st = Returned (st', rest) ->
    loop_filled out L st st'.
Proof.
  induction sc as [|e sc IH]; intros out L st st' rest HL H.
  - destruct (Z.ltb_spec 0 L) as [Hlt|Hge].
    + simpl in H. replace (0 <? L) with true in H
        by (symmetry; apply Z.ltb_lt; lia). discriminate.
    + rewrite linux_loop_done in H by lia. injection H as <- _.
      replace L with 0 by lia. apply loop_filled_nil.
  - destruct (Z.ltb_spec 0 L) as [Hlt|Hge].
    + destruct e as [en|n data].
      * destruct (Z.eq_dec en EINTR) as [->|Hne].
        -- rewrite linux_loop_eintr in H by exact Hlt.
           apply IH in H; [|exact HL].
           eapply loop_filled_retry; [| | | |exact H]; reflexivity.
        -- rewrite linux_loop_error in H by assumption. discriminate.
      * rewrite linux_loop_data in H by exact Hlt.
        apply IH in H; [|lia].
        eapply loop_filled_step; [|exact H]. lia.
    + rewrite linux_loop_done in H by lia. injection H as <- _.
      replace L with 0 by lia. apply loop_filled_nil.
Qed.

Lemma read_loop_returned (sc : script) :
  forall out L st st' rest,
    0 <= L ->
    Posix.read_loop sc out L st = Returned (st', rest) ->
    loop_filled out L st st'.
Proof.
  induction sc as [|e sc IH]; intros out L st st' rest HL H.
  - destruct (Z.ltb_spec 0 L) as [Hlt|Hge].
    + simpl in H. replace (0 <? L) with true in H
        by (symmetry; apply Z.ltb_lt; lia). discriminate.
    + rewrite read_loop_done in H by lia. injection H as <- _.
      replace L with 0 by lia. apply loop_filled_nil.
  - destruct (Z.ltb_spec 0 L) as [Hlt|Hge].
    + destruct e as [en|n data].
      * destruct (Z.eq_dec en EINTR) as [->|Hne].
        -- rewrite read_loop_eintr in H by exact Hlt.
           apply IH in H; [|exact HL].
           eapply loop_filled_retry; [| | | |exact H]; reflexivity.
        -- rewrite read_loop_error in H by assumption. discriminate.
      * rewrite read_loop_data in H by exact Hlt.
        apply IH in H; [|lia].
        eapply loop_filled_step; [|exact H]. lia.
    + rewrite read_loop_done in H by lia. injection H as <- _.
      replace L with 0 by lia. apply loop_filled_nil.
Qed.



(** ** Device file: the descriptor *)




Lemma open_loop_opened (sc : script) (st : process) :
  fd st <> -1 -> Posix.open_loop sc st = Returned (st, sc).
Proof.
  intros H. destruct sc; simpl;
    replace (fd st =? -1) with false by (symmetry; apply Z.eqb_neq; exact H);
    reflexivity.
Qed.

Lemma open_loop_eintr (rest : script) (st : process) :
  fd st = -1 ->
  Posix.open_loop (KFail EINTR :: rest) st
  = Posix.open_loop rest
      (set_fd (-1) (emit (open_call (-1)) (set_errno EINTR st))).
Proof.
  intros H. cbn [Posix.open_loop Posix.open]. rewrite H. reflexivity.
Qed.

Lemma open_loop_error (rest : script) (en : Z) (st : process) :
  fd st = -1 -> en <> EINTR ->
  Posix.open_loop (KFail en :: rest) st
  = Aborted (trace st ++ [open_call (-1); abort_call]).
Proof.
  intros H Hen. cbn [Posix.open_loop Posix.open]. rewrite H.
  cbn [Z.eqb Pos.eqb set_fd emit set_errno fd errno trace andb].
  replace (en =? EINTR) with false by (symmetry; apply Z.eqb_neq; exact Hen).
  rewrite <- app_assoc. reflexivity.
Qed.

Lemma open_loop_ok (rest : script) (n : N) (data : Z -> Z) (st : process) :
  fd st = -1 ->
  Posix.open_loop (KDone n data :: rest) st
  = Returned (set_fd (Z.of_N n) (emit (open_call (Z.of_N n)) st), rest).
Proof.
  intros H. cbn [Posix.open_loop Posix.open]. rewrite H.
  cbn [Z.eqb Pos.eqb set_fd fd].
  replace (Z.of_N n =? -1) with false by (symmetry; apply Z.eqb_neq; lia).
  cbn [andb]. apply open_loop_opened. cbn [set_fd fd]. lia.
Qed.

(** What the open loop does when the descriptor is still unopened. *)
Lemma open_loop_trace (sc : script) :
  forall st,
    fd st = -1 ->
    exists t,
      outcome_trace (Posix.open_loop sc st) = trace st ++ t /\
      closed t = 0%nat /\
      match Posix.open_loop sc st with
      | Returned (st', _) =>
          opened t = 1%nat /\ fd st' <> -1 /\ heap st' = heap st /\
          writes st' = writes st /\ rng_state st' = rng_state st
      | _ => opened t = 0%nat
      end.
Proof.
  induction sc as [|e sc IH]; intros st Hfd.
  - simpl. rewrite Hfd. simpl. exists []. rewrite app_nil_r. auto.
  - destruct e as [en|n data].
    + destruct (Z.eq_dec en EINTR) as [->|Hne].
      * rewrite open_loop_eintr by exact Hfd.
        destruct (IH (set_fd (-1) (emit (open_call (-1))
                                     (set_errno EINTR st))) eq_refl)
          as (t & Ht & Hc & Hm).
        exists (open_call (-1) :: t). split.
        -- rewrite Ht. cbn [set_fd emit set_errno trace].
           rewrite <- app_assoc. reflexivity.
        -- split; [exact Hc|].
           destruct (Posix.open_loop sc _) as [[st' rest]| |]; exact Hm.
      * rewrite open_loop_error by assumption.
        exists [open_call (-1); abort_call]. auto.
    + rewrite open_loop_ok by exact Hfd.
      exists [open_call (Z.of_N n)]. cbn [outcome_trace set_fd emit trace fd].
      split; [reflexivity|]. split; [reflexivity|].
      split; [|split; [lia|auto]].
      unfold opened. cbn [filter is_open_ok].
      replace (Z.of_N n =? -1) with false by (symmetry; apply Z.eqb_neq; lia).
      reflexivity.
Qed.

(** The read loop issues [read] calls only and leaves the descriptor
    alone. *)
Lemma read_loop_trace (sc : script) :
  forall out L st,
    exists t,
      outcome_trace (Posix.read_loop sc out L st) = trace st ++ t /\
      opened t = 0%nat /\ closed t = 0%nat /\ open_attempts t = 0%nat /\
      match Posix.read_loop sc out L st with
      | Returned (st', _) => fd st' = fd st
      | _ => True
      end.
Proof.
  induction sc as [|e sc IH]; intros out L st.
  - exists []. rewrite app_nil_r. simpl. destruct (0 <? L); simpl; auto.
  - destruct (Z.ltb_spec 0 L) as [Hlt|Hge].
    + destruct e as [en|n data].
      * destruct (Z.eq_dec en EINTR) as [->|Hne].
        -- rewrite read_loop_eintr by exact Hlt.
           destruct (IH out L (emit (read_call (fd st) out L (-1))
                                 (set_errno EINTR st)))
             as (t & Ht & Ho & Hc & Ha & Hm).
           exists (read_call (fd st) out L (-1) :: t). split.
           ++ rewrite Ht. cbn [emit set_errno trace].
              rewrite <- app_assoc. reflexivity.
           ++ repeat split; try assumption.
        -- rewrite read_loop_error by assumption.
           exists [read_call (fd st) out L (-1); abort_call]. simpl. auto.
      * rewrite read_loop_data by exact Hlt.
        destruct (IH (out + Z.min (Z.of_N n) L) (L - Z.min (Z.of_N n) L)
                    (emit (read_call (fd st) out L (Z.min (Z.of_N n) L))
                       (deliver out (Z.min (Z.of_N n) L) data st)))
          as (t & Ht & Ho & Hc & Ha & Hm).
        exists (read_call (fd st) out L (Z.min (Z.of_N n) L) :: t). split.
        -- rewrite Ht. cbn [emit deliver trace].
           rewrite <- app_assoc. reflexivity.
        -- repeat split; try assumption.
    + rewrite read_loop_done by lia. exists []. rewrite app_nil_r.
      simpl. auto.
Qed.







(** ** Platform crypto service *)

Lemma gen_calls_app (t1 t2 : list action) :
  gen_calls (t1 ++ t2) = gen_calls t1 ++ gen_calls t2.
Proof. apply flat_map_app. Qed.

Lemma gen_calls_gen_ok (cs : list (Z * Z)) : gen_calls (map gen_ok cs) = cs.
Proof.
  induction cs as [|[l a] cs IH]; [reflexivity|].
  simpl. rewrite IH. reflexivity.
Qed.

Lemma chunk_len_range (outlen : Z) :
  0 < outlen -> 0 < Win.chunk_len outlen <= 1048576
                /\ Win.chunk_len outlen <= outlen.
Proof.
  intros H. unfold Win.chunk_len.
  destruct (Z.ltb_spec 1048576 outlen); lia.
Qed.

Lemma win_loop_done (sc : script) (out outlen : Z) (st : process) :
  outlen <= 0 -> Win.gen_loop sc out outlen st = Returned (st, sc).
Proof.
  intros H. destruct sc; simpl;
    replace (0 <? outlen) with false by (symmetry; apply Z.ltb_ge; lia);
    reflexivity.
Qed.

Lemma win_loop_fail (rest : script) (out outlen en : Z) (st : process) :
  0 < outlen ->
  Win.gen_loop (KFail en :: rest) out outlen st
  = Aborted (trace st ++ [CryptGenRandom_call (Win.chunk_len outlen) out false;
                          abort_call]).
Proof.
  intros H. cbn [Win.gen_loop Win.CryptGenRandom].
  replace (0 <? outlen) with true by (symmetry; apply Z.ltb_lt; lia).
  cbn. rewrite <- app_assoc. reflexivity.
Qed.

Lemma win_loop_ok (rest : script) (out outlen : Z) (n : N) (data : Z -> Z)
  (st : process) :
  0 < outlen ->
  Win.gen_loop (KDone n data :: rest) out outlen st
  = Win.gen_loop rest (out + Win.chunk_len outlen)
      (outlen - Win.chunk_len outlen)
      (emit (CryptGenRandom_call (Win.chunk_len outlen) out true)
         (deliver out (Win.chunk_len outlen) data st)).
Proof.
  intros H. cbn [Win.gen_loop Win.CryptGenRandom].
  replace (0 <? outlen) with true by (symmetry; apply Z.ltb_lt; lia).
  reflexivity.
Qed.

Lemma chunk_count_step (L : Z) :
  0 < L ->
  (L + 1048575) / 1048576 = 1 + (L - Win.chunk_len L + 1048575) / 1048576.
Proof.
  intros H. unfold Win.chunk_len.
  destruct (Z.ltb_spec 1048576 L) as [Hbig|Hsmall].
  - replace (L + 1048575) with (L - 1048576 + 1048575 + 1 * 1048576) by lia.
    rewrite Z.div_add by lia. lia.
  - replace (L - L + 1048575) with 1048575 by lia.
    rewrite (Z.div_small 1048575) by lia.
    rewrite Z.add_0_r. symmetry.
    apply Z.div_unique with (r := L - 1); lia.
Qed.

(** Every [CryptGenRandom] call of the loop, whatever the outcome, asks for
    between 1 and 1048576 bytes. *)
Lemma win_loop_trace (sc : script) :
  forall out L st,
    exists t,
      outcome_trace (Win.gen_loop sc out L st) = trace st ++ t /\
      Forall chunk_bounded (gen_calls t).
Proof.
  induction sc as [|e sc IH]; intros out L st.
  - exists []. rewrite app_nil_r. simpl.
    destruct (0 <? L); split; try reflexivity; constructor.
  - destruct (Z.ltb_spec 0 L) as [Hlt|Hge].
    + pose proof (chunk_len_range L Hlt) as Hck.
      destruct e as [en|n data].
      * rewrite win_loop_fail by exact Hlt.
        exists [CryptGenRandom_call (Win.chunk_len L) out false; abort_call].
        split; [reflexivity|]. simpl. constructor; [|constructor].
        unfold chunk_bounded. simpl. lia.
      * rewrite win_loop_ok by exact Hlt.
        destruct (IH (out + Win.chunk_len L) (L - Win.chunk_len L)
                    (emit (CryptGenRandom_call (Win.chunk_len L) out true)
                       (deliver out (Win.chunk_len L) data st)))
          as (t & Ht & Hb).
        exists (CryptGenRandom_call (Win.chunk_len L) out true :: t). split.
        -- rewrite Ht. cbn [emit deliver trace]. rewrite <- app_assoc.
           reflexivity.
        -- simpl. constructor; [|exact Hb]. unfold chunk_bounded. simpl. lia.
    + rewrite win_loop_done by lia. exists []. rewrite app_nil_r.
      split; [reflexivity|constructor].
Qed.

(** A loop that returned has issued one successful call per chunk, the
    chunks tile the destination, and there are [ceil(L / 1048576)] of
    them. *)
Lemma win_loop_returned (sc : script) :
  forall out L st st' rest,
    0 <= L ->
    Win.gen_loop sc out L st = Returned (st', rest) ->
    loop_filled out L st st' /\
    exists cs,
      trace st' = trace st ++ map gen_ok cs /\
      writes st' = writes st ++ map (fun c => (snd c, fst c)) cs /\
      Z.of_nat (length cs) = (L + 1048575) / 1048576.
Proof.
  induction sc as [|e sc IH]; intros out L st st' rest HL H.
  - destruct (Z.ltb_spec 0 L) as [Hlt|Hge].
    + simpl in H. replace (0 <? L) with true in H
        by (symmetry; apply Z.ltb_lt; lia). discriminate.
    + rewrite win_loop_done in H by lia. injection H as <- _.
      replace L with 0 by lia. split; [apply loop_filled_nil|].
      exists []. simpl. rewrite !app_nil_r. repeat split; lia.
  - destruct (Z.ltb_spec 0 L) as [Hlt|Hge].
    + pose proof (chunk_len_range L Hlt) as Hck.
      destruct e as [en|n data].
      * rewrite win_loop_fail in H by exact Hlt. discriminate.
      * rewrite win_loop_ok in H by exact Hlt.
        apply IH in H; [|lia]. destruct H as (Hfill & cs & Htr & Hw & Hn).
        split; [eapply loop_filled_step; [|exact Hfill]; lia|].
        exists ((Win.chunk_len L, out) :: cs).
        split; [|split].
        -- rewrite Htr. cbn [emit deliver trace map]. rewrite <- app_assoc.
           reflexivity.
        -- rewrite Hw. cbn [emit deliver writes map fst snd].
           rewrite <- app_assoc. reflexivity.
        -- cbn [length]. rewrite Nat2Z.inj_succ, Hn.
           rewrite (chunk_count_step L Hlt). lia.
    + rewrite win_loop_done in H by lia. injection H as <- _.
      replace L with 0 by lia. split; [apply loop_filled_nil|].
      exists []. simpl. rewrite !app_nil_r. repeat split; lia.
Qed.

(** A request of one chunk and up to one more is served by two calls. *)
Lemma win_loop_two_chunks (sc : script) (out L : Z) (st st' : process)
  (rest : script) :
  1048576 < L <= 2 * 1048576 ->
  Win.gen_loop sc out L st = Returned (st', rest) ->
  trace st'
  = trace st ++ [CryptGenRandom_call 1048576 out true;
                 CryptGenRandom_call (L - 1048576) (out + 1048576) true].
Proof.
  intros HL H.
  assert (Hc : Win.chunk_len L = 1048576).
  { unfold Win.chunk_len.
    replace (1048576 <? L) with true by (symmetry; apply Z.ltb_lt; lia).
    reflexivity. }
  assert (Hc2 : Win.chunk_len (L - 1048576) = L - 1048576).
  { unfold Win.chunk_len.
    replace (1048576 <? L - 1048576) with false
      by (symmetry; apply Z.ltb_ge; lia).
    reflexivity. }
  destruct sc as [|[en|n data] sc].
  - simpl in H. replace (0 <? L) with true in H
      by (symmetry; apply Z.ltb_lt; lia). discriminate.
  - rewrite win_loop_fail in H by lia. discriminate.
  - rewrite win_loop_ok, Hc in H by lia.
    destruct sc as [|[en2|n2 d2] sc].
    + simpl in H. replace (0 <? L - 1048576) with true in H
        by (symmetry; apply Z.ltb_lt; lia). discriminate.
    + rewrite win_loop_fail in H by lia. discriminate.
    + rewrite win_loop_ok, Hc2 in H by lia.
      rewrite win_loop_done in H by lia.
      injection H as <- _. cbn [emit deliver trace].
      rewrite <- app_assoc. reflexivity.
Qed.

Lemma win_randombytes_facts (sc : script) (out L : Z) (st : process) :
  0 <= L ->
  exists t,
    outcome_trace (Win.randombytes sc out L st) = trace st ++ t /\
    Forall chunk_bounded (gen_calls t) /\
    forall st' rest,
      Win.randombytes sc out L st = Returned (st', rest) ->
      loop_filled out L st st' /\
      t = CryptAcquireContext_call true :: map gen_ok (gen_calls t)
            ++ [CryptReleaseContext_call true] /\
      writes st' = writes st ++ map (fun c => (snd c, fst c)) (gen_calls t) /\
      Z.of_nat (length (gen_calls t)) = (L + 1048575) / 1048576 /\
      (1048576 < L <= 2 * 1048576 ->
       gen_calls t = [(1048576, out); (L - 1048576, out + 1048576)]).
Proof.
  intros HL. destruct sc as [|[en|n0 d0] sc1].
  - exists []. rewrite app_nil_r. simpl.
    split; [reflexivity|]. split; [constructor|]. discriminate.
  - exists [CryptAcquireContext_call false; abort_call]. cbn.
    rewrite <- app_assoc.
    split; [reflexivity|]. split; [constructor|]. discriminate.
  - unfold Win.randombytes. cbn [Win.CryptAcquireContext negb].
    set (st1 := emit (CryptAcquireContext_call true) st).
    destruct (win_loop_trace sc1 out L st1) as (tl & Htl & Hb).
    destruct (Win.gen_loop sc1 out L st1) as [[st2 sc2]|t1|t1] eqn:E.
    + cbn [outcome_trace] in Htl.
      destruct (win_loop_returned sc1 out L st1 st2 sc2 HL E)
        as (Hfill & cs & Htr & Hw & Hn).
      assert (Heq : tl = map gen_ok cs).
      { rewrite Htl in Htr. apply app_inv_head in Htr. exact Htr. }
      assert (Hg : gen_calls tl = cs).
      { rewrite Heq. apply gen_calls_gen_ok. }
      destruct sc2 as [|[en'|n1 d1] sc3].
      * exists (CryptAcquireContext_call true :: tl). cbn [outcome_trace].
        rewrite Htl. unfold st1. cbn [emit trace]. rewrite <- app_assoc.
        split; [reflexivity|]. split; [exact Hb|]. discriminate.
      * exists (CryptAcquireContext_call true
                  :: tl ++ [CryptReleaseContext_call false; abort_call]).
        cbn [Win.CryptReleaseContext negb outcome_trace emit trace].
        rewrite Htl. unfold st1. cbn [emit trace].
        rewrite <- !app_assoc.
        split; [reflexivity|]. split; [|discriminate].
        cbn [gen_calls flat_map app].
        fold (gen_calls
                (tl ++ [CryptReleaseContext_call false; abort_call])).
        rewrite gen_calls_app. cbn. rewrite app_nil_r. exact Hb.
      * exists (CryptAcquireContext_call true
                  :: tl ++ [CryptReleaseContext_call true]).
        cbn [Win.CryptReleaseContext negb outcome_trace emit trace].
        rewrite Htl. unfold st1. cbn [emit trace].
        rewrite <- !app_assoc.
        assert (Hgc : gen_calls (CryptAcquireContext_call true
                        :: tl ++ [CryptReleaseContext_call true]) = cs).
        { cbn [gen_calls flat_map app].
          fold (gen_calls (tl ++ [CryptReleaseContext_call true])).
          rewrite gen_calls_app. cbn. rewrite app_nil_r. exact Hg. }
        split; [reflexivity|]. split; [rewrite Hgc, <- Hg; exact Hb|].
        intros st' rest Hret. injection Hret as <- <-. rewrite Hgc.
        split; [|split; [|split; [|split]]].
        -- destruct Hfill as ((ws & Hws & Ht) & Hfr & Hfd & Hrs).
           repeat split.
           ++ exists ws. split; [exact Hws|exact Ht].
           ++ exact Hfr.
           ++ exact Hfd.
           ++ exact Hrs.
        -- rewrite Heq. reflexivity.
        -- exact Hw.
        -- exact Hn.
        -- intros Hr.
           pose proof (win_loop_two_chunks sc1 out L st1 st2 _ Hr E) as H2.
           rewrite Htr in H2. apply app_inv_head in H2.
           rewrite <- (gen_calls_gen_ok cs), H2. reflexivity.
    + cbn [outcome_trace] in Htl.
      exists (CryptAcquireContext_call true :: tl). cbn [outcome_trace].
      rewrite Htl. unfold st1. cbn [emit trace]. rewrite <- app_assoc.
      split; [reflexivity|]. split; [exact Hb|]. discriminate.
    + cbn [outcome_trace] in Htl.
      exists (CryptAcquireContext_call true :: tl). cbn [outcome_trace].
      rewrite Htl. unfold st1. cbn [emit trace]. rewrite <- app_assoc.
      split; [reflexivity|]. split; [exact Hb|]. discriminate.
Qed.

Lemma chunk_count_nonneg (L : Z) : 0 <= L -> 0 <= (L + 1048575) / 1048576.
Proof. intros H. apply Z.div_pos; lia. Qed.

(** The loop returns as soon as the service answers each of its
    [ceil(L / 1048576)] calls with success, and it asks for no more
    answers than that. *)
Lemma win_loop_runs (sc : script) :
  forall out L st,
    0 <= L ->
    forallb succeeds sc = true ->
    (L + 1048575) / 1048576 <= Z.of_nat (length sc) ->
    exists st' rest,
      Win.gen_loop sc out L st = Returned (st', rest) /\
      forallb succeeds rest = true /\
      Z.of_nat (length sc)
      = Z.of_nat (length rest) + (L + 1048575) / 1048576.
Proof.
  induction sc as [|e sc IH]; intros out L st HL Hs Hlen.
  - destruct (Z.ltb_spec 0 L) as [Hlt|Hge].
    + pose proof (chunk_len_range L Hlt) as Hck.
      pose proof (chunk_count_step L Hlt) as Hstep.
      pose proof (chunk_count_nonneg (L - Win.chunk_len L)) as Hnn.
      cbn [length] in Hlen. lia.
    + rewrite win_loop_done by lia. exists st, [].
      replace L with 0 by lia. repeat split.
  - destruct (Z.ltb_spec 0 L) as [Hlt|Hge].
    + pose proof (chunk_len_range L Hlt) as Hck.
      pose proof (chunk_count_step L Hlt) as Hstep.
      cbn [forallb] in Hs. apply andb_prop in Hs. destruct Hs as [He Hs].
      destruct e as [en|n data]; [discriminate|].
      rewrite win_loop_ok by exact Hlt.
      destruct (IH (out + Win.chunk_len L) (L - Win.chunk_len L)
                  (emit (CryptGenRandom_call (Win.chunk_len L) out true)
                     (deliver out (Win.chunk_len L) data st)))
        as (st' & rest & Hr & Hsr & Hl).
      * lia.
      * exact Hs.
      * cbn [length] in Hlen. lia.
      * exists st', rest. split; [exact Hr|]. split; [exact Hsr|].
        cbn [length]. lia.
    + rewrite win_loop_done by lia. exists st, (e :: sc).
      replace L with 0 by lia. repeat split. exact Hs.
Qed.

Lemma win_randombytes_runs (sc : script) (out L : Z) (st : process) :
  0 <= L ->
  forallb succeeds sc = true ->
  (L + 1048575) / 1048576 + 2 <= Z.of_nat (length sc) ->
  exists st' rest, Win.randombytes sc out L st = Returned (st', rest).
Proof.
  intros HL Hs Hlen.
  pose proof (chunk_count_nonneg L HL) as Hnn.
  destruct sc as [|[en|n0 d0] sc1]; [cbn [length] in Hlen; lia|discriminate|].
  cbn [forallb succeeds andb] in Hs.
  unfold Win.randombytes. cbn [Win.CryptAcquireContext negb].
  destruct (win_loop_runs sc1 out L
              (emit (CryptAcquireContext_call true) st) HL Hs)
    as (st2 & sc2 & Hr & Hs2 & Hl).
  { cbn [length] in Hlen. lia. }
  rewrite Hr.
  destruct sc2 as [|[en'|n1 d1] sc3].
  - cbn [length] in Hlen, Hl. lia.
  - discriminate.
  - cbn. eauto.
Qed.

(** C4.  Platform crypto service.  Whatever the outcome, every
    [CryptGenRandom] call asks for at least 1 and at most 1,048,576 bytes.
    When the fill returns, each chunk of the destination was delivered by a
    call of its own, there are [ceil(L / 1048576)] calls, and for
    [L = 1048577] they are one call for 1,048,576 bytes at [out] and one for
    1 byte at [out + 1048576].  A failing call aborts at once: the rest of
    the answers is never asked for.  And the fill does return, with exactly
    these calls, whenever the service answers with success: acquisition,
    [ceil(L / 1048576)] chunks and release are all it asks for. *)
Theorem crypto_service_chunks (sc : script) (out L : Z) (st : process)
  (HL : 0 <= L) :
  (exists t,
     outcome_trace (Win.randombytes sc out L st) = trace st ++ t /\
     Forall (fun c => 0 < fst c <= 1048576) (gen_calls t) /\
     forall st' rest,
       Win.randombytes sc out L st = Returned (st', rest) ->
       Z.of_nat (length (gen_calls t)) = (L + 1048575) / 1048576 /\
       writes st' = writes st ++ map (fun c => (snd c, fst c)) (gen_calls t) /\
       (L = 1048577 -> gen_calls t = [(1048576, out); (1, out + 1048576)]))
  /\ (forall en rest,
        0 < L ->
        Win.gen_loop (KFail en :: rest) out L st
        = Aborted (trace st
                     ++ [CryptGenRandom_call (Win.chunk_len L) out false;
                         abort_call]))
  /\ (forallb succeeds sc = true ->
      (L + 1048575) / 1048576 + 2 <= Z.of_nat (length sc) ->
      exists st' rest t,
        Win.randombytes sc out L st = Returned (st', rest) /\
        trace st' = trace st ++ t /\
        Z.of_nat (length (gen_calls t)) = (L + 1048575) / 1048576 /\
        writes st' = writes st ++ map (fun c => (snd c, fst c)) (gen_calls t)
        /\ (L = 1048577 ->
            gen_calls t = [(1048576, out); (1, out + 1048576)])).
Proof.
  destruct (win_randombytes_facts sc out L st HL) as (t & Ht & Hb & Hret).
  split; [|split].
  - exists t. split; [exact Ht|]. split; [exact Hb|].
    intros st' rest H. destruct (Hret st' rest H) as (_ & _ & Hw & Hn & H2).
    split; [exact Hn|]. split; [exact Hw|].
    intros ->. rewrite H2 by lia. reflexivity.
  - intros en rest Hpos. apply win_loop_fail. exact Hpos.
  - intros Hs Hlen.
    destruct (win_randombytes_runs sc out L st HL Hs Hlen)
      as (st' & rest & Hrun).
    destruct (Hret st' rest Hrun) as (_ & _ & Hw & Hn & H2).
    exists st', rest, t. split; [exact Hrun|].
    rewrite Hrun in Ht. cbn [outcome_trace] in Ht.
    split; [exact Ht|]. split; [exact Hn|]. split; [exact Hw|].
    intros ->. rewrite H2 by lia. reflexivity.
Qed.

Lemma crypto_service_chunks_witness :
  0 <= 1048577 /\
  forallb succeeds
    [KDone 0 (fun _ => 7); KDone 0 (fun j => j mod 256);
     KDone 0 (fun _ => 9); KDone 0 (fun _ => 7)] = true /\
  (1048577 + 1048575) / 1048576 + 2
  <= Z.of_nat
       (length
          [KDone 0 (fun _ => 7); KDone 0 (fun j => j mod 256);
           KDone 0 (fun _ => 9); KDone 0 (fun _ => 7)]) /\
  exists st' rest t,
    Win.randombytes
      [KDone 0 (fun _ => 7); KDone 0 (fun j => j mod 256);
       KDone 0 (fun _ => 9); KDone 0 (fun _ => 7)]
      0 1048577 initial_process
    = Returned (st', rest) /\
    trace st' = trace initial_process ++ t /\
    Z.of_nat (length (gen_calls t)) = (1048577 + 1048575) / 1048576 /\
    writes st'
    = writes initial_process ++ map (fun c => (snd c, fst c)) (gen_calls t) /\
    (1048577 = 1048577 ->
     gen_calls t = [(1048576, 0); (1, 0 + 1048576)]).
Proof.
  split; [lia|]. split; [reflexivity|].
  split; [vm_compute; discriminate|].
  apply (proj2 (proj2 (crypto_service_chunks
                         [KDone 0 (fun _ => 7); KDone 0 (fun j => j mod 256);
                          KDone 0 (fun _ => 9); KDone 0 (fun _ => 7)]
                         0 1048577 initial_process ltac:(lia)))).
  - reflexivity.
  - vm_compute. discriminate.
Defined.

Example crypto_service_two_calls :
  outcome_trace
    (Win.randombytes
       [KDone 0 (fun _ => 7); KDone 0 (fun j => j mod 256);
        KDone 0 (fun _ => 9); KDone 0 (fun _ => 7)]
       0 1048577 initial_process)
  = [CryptAcquireContext_call true;
     CryptGenRandom_call 1048576 0 true;
     CryptGenRandom_call 1 1048576 true;
     CryptReleaseContext_call true].
Proof. vm_compute. reflexivity. Qed.




(** ** Host bridge *)

Lemma wasm_try_inv (h : host) (buf len : Z) (st st' : process) :
  Wasm.crypto_get_random_values h buf len st = Returned st' ->
  Wasm.view_in_heap buf len st = true /\
  exists call bytes, st' = deliver buf len bytes (emit (call len) st).
Proof.
  unfold Wasm.crypto_get_random_values, Wasm.try_block.
  destruct (Wasm.view_in_heap buf len st); cbn [negb]; [|discriminate].
  intros H. split; [reflexivity|]. revert H.
  destruct (crypto_getRandomValues h) as [f|].
  - destruct (f len) as [bytes|]; [|discriminate].
    intros H. injection H as <-. eauto.
  - destruct (globalThis_crypto_getRandomValues h) as [f|].
    + destruct (f len) as [bytes|]; [|discriminate].
      intros H. injection H as <-. eauto.
    + destruct (require_crypto_randomBytes h) as [f|]; [|discriminate].
      destruct (f len) as [bytes|]; [|discriminate].
      intros H. injection H as <-. eauto.
Qed.


Lemma wasm_no_view (h : host) (buf len : Z) (st : process) :
  Wasm.view_in_heap buf len st = false ->
  Wasm.crypto_get_random_values h buf len st
  = Aborted (trace st ++ [console_error_call; abort_call]).
Proof.
  intros Hv. unfold Wasm.crypto_get_random_values, Wasm.try_block.
  rewrite Hv. cbn [negb emit trace]. rewrite <- app_assoc. reflexivity.
Qed.

(** C6, as the code has it.  The view over the destination is built first;
    when that throws (the range is not inside the module's memory) the
    failure is logged with [console.error] and the process aborts without
    any capability being called.  Otherwise the three capabilities are tried
    in the order global [crypto.getRandomValues],
    [globalThis.crypto.getRandomValues], [require('crypto').randomBytes]; the
    first one present serves the request and the later ones are not
    consulted; when it throws, or when none is present, the failure is
    logged and the process aborts.  A call that returns has built the view
    and has put the bytes of the host on the whole of it. *)
Theorem host_bridge_priority (buf len : Z) (st : process)
  (f : Z -> js_completion (Z -> Z))
  (b c : option (Z -> js_completion (Z -> Z))) :
  Wasm.crypto_get_random_values (mkHost (Some f) b c) buf len st
  = (if Wasm.view_in_heap buf len st
     then via_capability f crypto_getRandomValues_call buf len st
     else Aborted (trace st ++ [console_error_call; abort_call]))
  /\ Wasm.crypto_get_random_values (mkHost None (Some f) c) buf len st
     = (if Wasm.view_in_heap buf len st
        then via_capability f globalThis_crypto_getRandomValues_call
               buf len st
        else Aborted (trace st ++ [console_error_call; abort_call]))
  /\ Wasm.crypto_get_random_values (mkHost None None (Some f)) buf len st
     = (if Wasm.view_in_heap buf len st
        then via_capability f require_crypto_randomBytes_call buf len st
        else Aborted (trace st ++ [console_error_call; abort_call]))
  /\ Wasm.crypto_get_random_values (mkHost None None None) buf len st
     = Aborted (trace st ++ [console_error_call; abort_call])
  /\ (forall h st',
        Wasm.crypto_get_random_values h buf len st = Returned st' ->
        (0 <= buf /\ 0 <= len /\ buf + len <= heap_size st) /\
        exists call bytes,
          st' = deliver buf len bytes (emit (call len) st) /\
          forall a, buf <= a < buf + len -> heap st' a = bytes (a - buf))
  /\ (forall h, Wasm.randombytes h buf len st
                = Wasm.crypto_get_random_values h buf len st).
Proof.
  split; [|split; [|split; [|split; [|split]]]].
  - destruct (Wasm.view_in_heap buf len st) eqn:Hv;
      [|apply wasm_no_view; exact Hv].
    unfold via_capability, Wasm.crypto_get_random_values, Wasm.try_block.
    rewrite Hv. cbn [negb crypto_getRandomValues].
    destruct (f len); [reflexivity|]. cbn [emit trace].
    rewrite <- !app_assoc. reflexivity.
  - destruct (Wasm.view_in_heap buf len st) eqn:Hv;
      [|apply wasm_no_view; exact Hv].
    unfold via_capability, Wasm.crypto_get_random_values, Wasm.try_block.
    rewrite Hv.
    cbn [negb crypto_getRandomValues globalThis_crypto_getRandomValues].
    destruct (f len); [reflexivity|]. cbn [emit trace].
    rewrite <- !app_assoc. reflexivity.
  - destruct (Wasm.view_in_heap buf len st) eqn:Hv;
      [|apply wasm_no_view; exact Hv].
    unfold via_capability, Wasm.crypto_get_random_values, Wasm.try_block.
    rewrite Hv.
    cbn [negb crypto_getRandomValues globalThis_crypto_getRandomValues
         require_crypto_randomBytes].
    destruct (f len); [reflexivity|]. cbn [emit trace].
    rewrite <- !app_assoc. reflexivity.
  - destruct (Wasm.view_in_heap buf len st) eqn:Hv;
      [|apply wasm_no_view; exact Hv].
    unfold Wasm.crypto_get_random_values, Wasm.try_block.
    rewrite Hv.
    cbn [negb crypto_getRandomValues globalThis_crypto_getRandomValues
         require_crypto_randomBytes emit trace].
    rewrite <- !app_assoc. reflexivity.
  - intros h st' H.
    destruct (wasm_try_inv h buf len st st' H) as (Hv & call & bytes & ->).
    split.
    + unfold Wasm.view_in_heap in Hv.
      apply andb_prop in Hv. destruct Hv as [Hv H3].
      apply andb_prop in Hv. destruct Hv as [H1 H2]. zbool. auto.
    + exists call, bytes. split; [reflexivity|].
      intros a Ha. cbn [deliver heap]. apply store_range_inside. exact Ha.
  - reflexivity.
Qed.

(** C6 as the specification words it fails: the first capability is present
    and would succeed, but the view reaches past the end of the module's
    memory, so the call aborts without using any capability. *)
Lemma host_bridge_view_outside_memory :
  heap_size initial_process = 16777216
  /\ Wasm.crypto_get_random_values
       (mkHost (Some (fun _ => Normal (fun _ => 7))) None None)
       16777215 2 initial_process
     = Aborted [console_error_call; abort_call]
  /\ Wasm.crypto_get_random_values
       (mkHost (Some (fun _ => Normal (fun _ => 7))) None None)
       16777215 2 initial_process
     <> via_capability (fun _ => Normal (fun _ => 7))
          crypto_getRandomValues_call 16777215 2 initial_process
  /\ Wasm.crypto_get_random_values
       (mkHost (Some (fun _ => Normal (fun _ => 7))) None None)
       16777214 2 initial_process
     = Returned
         (deliver 16777214 2 (fun _ => 7)
            (emit (crypto_getRandomValues_call 2) initial_process)).
Proof.
  split; [reflexivity|]. split; [reflexivity|].
  split; [discriminate|reflexivity].
Qed.

(** C8.  Kyber signature: whenever the host bridge completes, [randombytes]
    returns status 0 (and it returns only then); [randombytes_init] returns
    the process as it found it, whatever its three arguments are. *)
Theorem kyber_status_and_init (h : host) (x xlen : Z) (st : process)
  (entropy_input personalization_string security_strength : Z) :
  (forall st',
     Wasm.crypto_get_random_values h x (Kyber.size_t_of_ull xlen) st
     = Returned st' ->
     Kyber.randombytes h x xlen st = Returned (0, st'))
  /\ (forall r st',
        Kyber.randombytes h x xlen st = Returned (r, st') ->
        r = 0 /\
        Wasm.crypto_get_random_values h x (Kyber.size_t_of_ull xlen) st
        = Returned st')
  /\ Kyber.randombytes_init entropy_input personalization_string
       security_strength st = st
  /\ (forall e p s,
        Kyber.randombytes_init e p s st
        = Kyber.randombytes_init entropy_input personalization_string
            security_strength st).
Proof.
  unfold Kyber.randombytes, Kyber.randombytes_init. repeat split.
  - intros st' H. rewrite H. reflexivity.
  - destruct (Wasm.crypto_get_random_values h x (Kyber.size_t_of_ull xlen) st);
      [|discriminate|discriminate].
    injection H as <- _. reflexivity.
  - destruct (Wasm.crypto_get_random_values h x (Kyber.size_t_of_ull xlen) st);
      [|discriminate|discriminate].
    injection H as _ <-. reflexivity.
Qed.

Lemma kyber_status_and_init_witness :
  Wasm.crypto_get_random_values
    (mkHost None (Some (fun _ => Normal (fun j => j + 1))) None)
    8 (Kyber.size_t_of_ull 4) initial_process
  = Returned
      (deliver 8 4 (fun j => j + 1)
         (emit (globalThis_crypto_getRandomValues_call 4) initial_process))
  /\ Kyber.randombytes
       (mkHost None (Some (fun _ => Normal (fun j => j + 1))) None)
       8 4 initial_process
     = Returned
         (0, deliver 8 4 (fun j => j + 1)
               (emit (globalThis_crypto_getRandomValues_call 4)
                  initial_process)).
Proof.
  split; [reflexivity|].
  exact (proj1 (kyber_status_and_init
                  (mkHost None (Some (fun _ => Normal (fun j => j + 1))) None)
                  8 4 initial_process 0 0 0) _ eq_refl).
Defined.

Lemma host_bridge_priority_witness :
  Wasm.crypto_get_random_values
    (mkHost None (Some (fun _ => Normal (fun j => j + 1)))
       (Some (fun _ => Throw)))
    8 4 initial_process
  = Returned
      (deliver 8 4 (fun j => j + 1)
         (emit (globalThis_crypto_getRandomValues_call 4) initial_process))
  /\ (0 <= 8 /\ 0 <= 4 /\ 8 + 4 <= heap_size initial_process)
  /\ exists call bytes,
       deliver 8 4 (fun j => j + 1)
         (emit (globalThis_crypto_getRandomValues_call 4) initial_process)
       = deliver 8 4 bytes (emit (call 4) initial_process) /\
       forall a, 8 <= a < 8 + 4 ->
         heap (deliver 8 4 (fun j => j + 1)
                 (emit (globalThis_crypto_getRandomValues_call 4)
                    initial_process)) a
         = bytes (a - 8).
Proof.
  split; [reflexivity|].
  exact (proj1 (proj2 (proj2 (proj2 (proj2
           (host_bridge_priority 8 4 initial_process (fun _ => Throw)
              None None)))))
           (mkHost None (Some (fun _ => Normal (fun j => j + 1)))
              (Some (fun _ => Throw)))
           _ eq_refl).
Defined.

(** ** The fill contract *)



Lemma open_loop_returned (sc : script) (st st1 : process) (sc1 : script) :
  Posix.open_loop sc st = Returned (st1, sc1) ->
  heap st1 = heap st /\ writes st1 = writes st /\
  rng_state st1 = rng_state st /\ fd st1 <> -1.
Proof.
  intros H. destruct (Z.eq_dec (fd st) (-1)) as [Hfd|Hfd].
  - destruct (open_loop_trace sc st Hfd) as (t & _ & _ & Hm).
    rewrite H in Hm. destruct Hm as (_ & Hf & Hh & Hw & Hr). auto.
  - rewrite open_loop_opened in H by exact Hfd. injection H as <- _. auto.
Qed.






(** ** Zero-length requests *)





(** * Further properties of the backends *)

(** ** Test generator: the effective state *)

Lemma lcg_next_low24 (s1 s2 k : Z) :
  s1 = s2 + k * 2 ^ 24 ->
  exists k', Lcg.lcg_next s1 = Lcg.lcg_next s2 + k' * 2 ^ 24.
Proof.
  intros ->. unfold Lcg.lcg_next, wrap32.
  rewrite !Z.mod_eq by (change (2 ^ 32) with 4294967296; lia).
  change (2 ^ 32) with 4294967296. change (2 ^ 24) with 16777216.
  set (q1 := ((s2 + k * 16777216) * 1103515245 + 12345) / 4294967296).
  set (q2 := (s2 * 1103515245 + 12345) / 4294967296).
  exists (k * 1103515245 - 256 * (q1 - q2)). lia.
Qed.

Lemma lcg_iter_low24 (n : nat) (s1 s2 : Z) :
  (exists k, s1 = s2 + k * 2 ^ 24) ->
  exists k', Nat.iter n Lcg.lcg_next s1
             = Nat.iter n Lcg.lcg_next s2 + k' * 2 ^ 24.
Proof.
  intros H. induction n as [|n IH]; [exact H|].
  destruct IH as (k & Hk). cbn [Nat.iter nat_rect].
  exact (lcg_next_low24 _ _ _ Hk).
Qed.

Lemma output_byte_low24 (s1 s2 k : Z) :
  s1 = s2 + k * 2 ^ 24 ->
  Z.land (Z.shiftr s1 16) 255 = Z.land (Z.shiftr s2 16) 255.
Proof.
  intros ->. rewrite !Z.shiftr_div_pow2 by lia.
  change 255 with (Z.ones 8). rewrite !Z.land_ones by lia.
  replace (s2 + k * 2 ^ 24) with (s2 + (k * 2 ^ 8) * 2 ^ 16)
    by (change (2 ^ 24) with (2 ^ 8 * 2 ^ 16); ring).
  rewrite Z.div_add by (change (2 ^ 16) with 65536; lia).
  apply Z.mod_add. change (2 ^ 8) with 256. lia.
Qed.

Lemma stream_byte_low24 (s1 s2 : Z) (j : nat) :
  (exists k, s1 = s2 + k * 2 ^ 24) ->
  Lcg.stream_byte s1 j = Lcg.stream_byte s2 j.
Proof.
  intros H. unfold Lcg.stream_byte.
  destruct (lcg_iter_low24 (S j) s1 s2 H) as (k & Hk).
  exact (output_byte_low24 _ _ _ Hk).
Qed.

Lemma low24_of_mod (s1 s2 : Z) :
  s1 mod 2 ^ 24 = s2 mod 2 ^ 24 -> exists k, s1 = s2 + k * 2 ^ 24.
Proof.
  intros H. exists (s1 / 2 ^ 24 - s2 / 2 ^ 24).
  pose proof (Z.div_mod s1 (2 ^ 24)) as H1.
  pose proof (Z.div_mod s2 (2 ^ 24)) as H2.
  change (2 ^ 24) with 16777216 in *. lia.
Qed.

Lemma low24_to_mod (s1 s2 k : Z) :
  s1 = s2 + k * 2 ^ 24 -> s1 mod 2 ^ 24 = s2 mod 2 ^ 24.
Proof.
  intros ->. apply Z.mod_add. change (2 ^ 24) with 16777216. lia.
Qed.

(** X1.  Only the low 24 bits of the generator state matter: two processes whose
    states agree modulo 2^24 write the same bytes, and their states still
    agree modulo 2^24 afterwards. *)
Theorem lcg_low24_bits_decide (out L : Z) (st1 st2 : process)
  (Hs : rng_state st1 mod 2 ^ 24 = rng_state st2 mod 2 ^ 24) :
  load_bytes (heap (Lcg.randombytes out L st1)) out (Z.to_nat L)
  = load_bytes (heap (Lcg.randombytes out L st2)) out (Z.to_nat L)
  /\ rng_state (Lcg.randombytes out L st1) mod 2 ^ 24
     = rng_state (Lcg.randombytes out L st2) mod 2 ^ 24.
Proof.
  apply low24_of_mod in Hs.
  destruct (Z.le_gt_cases 0 L) as [HL|HL].
  - rewrite !lcg_randombytes_output by exact HL.
    destruct (lcg_randombytes_spec out L st1 HL) as (H1 & _).
    destruct (lcg_randombytes_spec out L st2 HL) as (H2 & _).
    split.
    + apply map_ext. intros j. apply stream_byte_low24. exact Hs.
    + rewrite H1, H2.
      destruct (lcg_iter_low24 (Z.to_nat L) _ _ Hs) as (k & Hk).
      exact (low24_to_mod _ _ _ Hk).
  - rewrite !lcg_randombytes_neg by lia.
    replace (Z.to_nat L) with 0%nat by lia. split; [reflexivity|].
    destruct Hs as (k & Hk). exact (low24_to_mod _ _ _ Hk).
Qed.

Lemma lcg_low24_bits_decide_witness :
  rng_state initial_process mod 2 ^ 24
  = rng_state (set_rng_state (12345 + 5 * 2 ^ 24) initial_process) mod 2 ^ 24
  /\ load_bytes (heap (Lcg.randombytes 0 4 initial_process)) 0 (Z.to_nat 4)
     = load_bytes
         (heap (Lcg.randombytes 0 4
                  (set_rng_state (12345 + 5 * 2 ^ 24) initial_process)))
         0 (Z.to_nat 4).
Proof.
  split; [reflexivity|].
  exact (proj1 (lcg_low24_bits_decide 0 4 initial_process
                  (set_rng_state (12345 + 5 * 2 ^ 24) initial_process)
                  eq_refl)).
Defined.

(** [2^k] steps of the recurrence act on the state as [s |-> A * s + C]
    modulo 2^32 with [A = 1] and [C = 0] modulo [2^k]. *)
Lemma lcg_iter_pow2 (k : nat) :
  exists A C u v w,
    A = 1 + u * 2 ^ Z.of_nat k /\ C = v * 2 ^ Z.of_nat k /\ A = 2 * w + 1 /\
    forall s, exists q,
      Nat.iter (2 ^ k) Lcg.lcg_next s = A * s + C + q * 2 ^ 32.
Proof.
  induction k as [|k IH].
  - exists 1103515245, 12345, 1103515244, 12345, 551757622.
    repeat split. intros s. cbn [Nat.pow Nat.iter nat_rect Nat.mul Nat.add].
    unfold Lcg.lcg_next, wrap32.
    rewrite Z.mod_eq by (change (2 ^ 32) with 4294967296; lia).
    exists (- ((s * 1103515245 + 12345) / 2 ^ 32)). ring.
  - destruct IH as (A & C & u & v & w & HA & HC & Hodd & Hit).
    set (P := 2 ^ Z.of_nat k) in *.
    assert (HP : 2 ^ Z.of_nat (S k) = 2 * P).
    { rewrite Nat2Z.inj_succ, Z.pow_succ_r by lia. reflexivity. }
    exists (A * A), (A * C + C), (u * (w + 1)), (v * (w + 1)),
      (2 * w * w + 2 * w).
    rewrite HP. split; [|split; [|split]].
    + assert (Huw : u * P = 2 * w) by lia.
      replace (A * A) with ((1 + u * P) * (2 * w + 1))
        by (rewrite <- HA at 1; rewrite <- Hodd; reflexivity).
      replace (u * (w + 1) * (2 * P)) with ((u * P) * (2 * w + 2)) by ring.
      rewrite Huw. ring.
    + replace (A * C + C) with (C * (A + 1)) by ring.
      rewrite HC. rewrite Hodd. ring.
    + rewrite Hodd. ring.
    + intros s.
      replace (2 ^ S k)%nat with (2 ^ k + 2 ^ k)%nat
        by (rewrite Nat.pow_succ_r'; lia).
      rewrite Nat.iter_add.
      destruct (Hit s) as (q2 & Hq2). rewrite Hq2.
      destruct (Hit (A * s + C + q2 * 2 ^ 32)) as (q1 & Hq1). rewrite Hq1.
      exists (A * q2 + q1). ring.
Qed.

Lemma lcg_period_low24 (s : Z) :
  exists k, Nat.iter (2 ^ 24) Lcg.lcg_next s = s + k * 2 ^ 24.
Proof.
  destruct (lcg_iter_pow2 24) as (A & C & u & v & w & HA & HC & _ & Hit).
  destruct (Hit s) as (q & Hq). rewrite Hq, HA, HC.
  change (Z.of_nat 24) with 24.
  exists (u * s + v + q * 2 ^ 8).
  change (2 ^ 32) with (2 ^ 8 * 2 ^ 24). ring.
Qed.

(** X2.  The byte stream has period 2^24: after a fill of 16,777,216 bytes the
    generator produces the bytes it would have produced without it. *)
Theorem lcg_stream_period (out1 out2 n : Z) (st : process) :
  load_bytes
    (heap (Lcg.randombytes out2 n (Lcg.randombytes out1 (2 ^ 24) st)))
    out2 (Z.to_nat n)
  = load_bytes (heap (Lcg.randombytes out2 n st)) out2 (Z.to_nat n).
Proof.
  destruct (Z.le_gt_cases 0 n) as [Hn|Hn].
  - rewrite !lcg_randombytes_output by exact Hn.
    apply map_ext. intros j. apply stream_byte_low24.
    assert (H24 : 0 <= 2 ^ 24) by (apply Z.pow_nonneg; lia).
    destruct (lcg_randombytes_spec out1 (2 ^ 24) st H24) as (Hs & _).
    rewrite Hs. rewrite Z2Nat.inj_pow by lia.
    change (Z.to_nat 2) with 2%nat. change (Z.to_nat 24) with 24%nat.
    apply lcg_period_low24.
  - replace (Z.to_nat n) with 0%nat by lia. cbn [load_bytes]. reflexivity.
Qed.

Lemma land_255_range (x : Z) : 0 <= Z.land x 255 <= 255.
Proof.
  change 255 with (Z.ones 8) at 1 2. rewrite Z.land_ones by lia.
  pose proof (Z.mod_pos_bound x (2 ^ 8) eq_refl) as Hb.
  change (2 ^ 8) with 256 in *. lia.
Qed.

(** X3.  The test generator stores bytes only (0..255), keeps the state a 32-bit
    value, and has no effect besides the destination and the state: no
    backend call is recorded, descriptor and [errno] are untouched. *)
Theorem lcg_bytes_and_state_in_range (out L a : Z) (st : process)
  (Ha : out <= a < out + L) :
  0 <= heap (Lcg.randombytes out L st) a <= 255
  /\ 0 <= rng_state (Lcg.randombytes out L st) < 2 ^ 32
  /\ trace (Lcg.randombytes out L st) = trace st
  /\ fd (Lcg.randombytes out L st) = fd st
  /\ errno (Lcg.randombytes out L st) = errno st.
Proof.
  assert (HL : 0 <= L) by lia.
  destruct (lcg_randombytes_spec out L st HL)
    as (Hs & Hh & _ & Hfd & He & Ht).
  split; [|split; [|auto]].
  - rewrite Hh.
    replace (out <=? a) with true by (symmetry; apply Z.leb_le; lia).
    replace (a <? out + L) with true by (symmetry; apply Z.ltb_lt; lia).
    cbn [andb]. unfold Lcg.stream_byte. apply land_255_range.
  - rewrite Hs.
    destruct (Z.to_nat L) as [|n] eqn:En; [lia|].
    cbn [Nat.iter nat_rect]. unfold Lcg.lcg_next at 1. unfold wrap32.
    apply Z.mod_pos_bound. reflexivity.
Qed.

Lemma lcg_bytes_and_state_in_range_witness :
  100 <= 102 < 100 + 4 /\
  0 <= heap (Lcg.randombytes 100 4 initial_process) 102 <= 255.
Proof.
  split; [lia|].
  exact (proj1 (lcg_bytes_and_state_in_range 100 4 102 initial_process
                  ltac:(lia))).
Defined.

(** ** Native loops: what reaches the destination *)

(** X4.  Bytes handed over by a successful call are final: when the fill
    returns, they are where the call put them; the later iterations write
    behind them. *)
Theorem delivered_bytes_stay (rest rest' : script) (out L a : Z) (n : N)
  (data : Z -> Z) (st st' : process) (HL : 0 < L) :
  (out <= a < out + Z.min (Z.of_N n) L ->
   Linux.randombytes (KDone n data :: rest) out L st = Returned (st', rest') ->
   heap st' a = data (a - out))
  /\ (out <= a < out + Z.min (Z.of_N n) L ->
      Posix.read_loop (KDone n data :: rest) out L st
      = Returned (st', rest') ->
      heap st' a = data (a - out))
  /\ (out <= a < out + Win.chunk_len L ->
      Win.gen_loop (KDone n data :: rest) out L st = Returned (st', rest') ->
      heap st' a = data (a - out)).
Proof.
  split; [|split].
  - intros Ha H. rewrite linux_loop_data in H by exact HL.
    apply linux_loop_returned in H; [|lia].
    destruct H as (_ & Hfr & _). rewrite Hfr by lia.
    cbn [emit deliver heap]. apply store_range_inside. exact Ha.
  - intros Ha H. rewrite read_loop_data in H by exact HL.
    apply read_loop_returned in H; [|lia].
    destruct H as (_ & Hfr & _). rewrite Hfr by lia.
    cbn [emit deliver heap]. apply store_range_inside. exact Ha.
  - intros Ha H. pose proof (chunk_len_range L HL) as Hck.
    rewrite win_loop_ok in H by exact HL.
    apply win_loop_returned in H; [|lia].
    destruct H as ((_ & Hfr & _) & _). rewrite Hfr by lia.
    cbn [emit deliver heap]. apply store_range_inside. exact Ha.
Qed.

Lemma delivered_bytes_stay_witness :
  0 < 5 /\ 100 <= 101 < 100 + Z.min (Z.of_N 3) 5 /\
  Linux.randombytes [KDone 3 (fun j => j + 10); KDone 9 (fun j => j + 20)]
    100 5 initial_process
  = Returned
      (emit (getrandom_call 103 2 2)
         (deliver 103 2 (fun j => j + 20)
            (emit (getrandom_call 100 5 3)
               (deliver 100 3 (fun j => j + 10) initial_process))), [])
  /\ heap
       (emit (getrandom_call 103 2 2)
          (deliver 103 2 (fun j => j + 20)
             (emit (getrandom_call 100 5 3)
                (deliver 100 3 (fun j => j + 10) initial_process)))) 101
     = 101 - 100 + 10.
Proof.
  split; [lia|]. split; [simpl; lia|]. split; [reflexivity|].
  apply (proj1 (delivered_bytes_stay [KDone 9 (fun j => j + 20)] [] 100 5 101
                  3 (fun j => j + 10) initial_process _ ltac:(lia))).
  - simpl. lia.
  - reflexivity.
Defined.


Lemma read_loop_tail (sc : script) (base stop : Z) :
  forall out L st,
    base <= out -> out + L = stop ->
    exists t,
      outcome_trace (Posix.read_loop sc out L st) = trace st ++ t /\
      Forall (asks_for_tail base stop) t /\
      Forall (reads_from (fd st)) t.
Proof.
  induction sc as [|e sc IH]; intros out L st Hb Hs.
  - exists []. rewrite app_nil_r. simpl.
    destruct (0 <? L); repeat split; constructor.
  - destruct (Z.ltb_spec 0 L) as [Hlt|Hge].
    + destruct e as [en|n data].
      * destruct (Z.eq_dec en EINTR) as [->|Hne].
        -- rewrite read_loop_eintr by exact Hlt.
           destruct (IH out L (emit (read_call (fd st) out L (-1))
                                 (set_errno EINTR st)) Hb Hs)
             as (t & Ht & Hf & Hr).
           exists (read_call (fd st) out L (-1) :: t). split; [|split].
           ++ rewrite Ht. cbn [emit set_errno trace].
              rewrite <- app_assoc. reflexivity.
           ++ constructor; [|exact Hf]. cbn. auto.
           ++ constructor; [reflexivity|exact Hr].
        -- rewrite read_loop_error by assumption.
           exists [read_call (fd st) out L (-1); abort_call].
           split; [reflexivity|]. split.
           ++ constructor; [cbn; auto|]. constructor; [exact I|constructor].
           ++ constructor; [reflexivity|].
              constructor; [exact I|constructor].
      * rewrite read_loop_data by exact Hlt.
        destruct (IH (out + Z.min (Z.of_N n) L) (L - Z.min (Z.of_N n) L)
                    (emit (read_call (fd st) out L (Z.min (Z.of_N n) L))
                       (deliver out (Z.min (Z.of_N n) L) data st)))
          as (t & Ht & Hf & Hr); [lia|lia|].
        exists (read_call (fd st) out L (Z.min (Z.of_N n) L) :: t).
        split; [|split].
        -- rewrite Ht. cbn [emit deliver trace]. rewrite <- app_assoc.
           reflexivity.
        -- constructor; [|exact Hf]. cbn. repeat split; try lia.
        -- constructor; [reflexivity|exact Hr].
    + rewrite read_loop_done by lia. exists []. rewrite app_nil_r.
      repeat split; constructor.
Qed.

Lemma open_loop_actions (sc : script) :
  forall st,
    exists t,
      outcome_trace (Posix.open_loop sc st) = trace st ++ t /\
      Forall open_or_abort t.
Proof.
  induction sc as [|e sc IH]; intros st.
  - exists []. rewrite app_nil_r. simpl.
    destruct (fd st =? -1); split; try reflexivity; constructor.
  - destruct (Z.eq_dec (fd st) (-1)) as [Hfd|Hfd].
    + destruct e as [en|n data].
      * destruct (Z.eq_dec en EINTR) as [->|Hne].
        -- rewrite open_loop_eintr by exact Hfd.
           destruct (IH (set_fd (-1) (emit (open_call (-1))
                                        (set_errno EINTR st))))
             as (t & Ht & Hf).
           exists (open_call (-1) :: t). split.
           ++ rewrite Ht. cbn [set_fd emit set_errno trace].
              rewrite <- app_assoc. reflexivity.
           ++ constructor; [exact I|exact Hf].
        -- rewrite open_loop_error by assumption.
           exists [open_call (-1); abort_call]. split; [reflexivity|].
           constructor; [exact I|]. constructor; [exact I|constructor].
      * rewrite open_loop_ok by exact Hfd.
        exists [open_call (Z.of_N n)]. split; [reflexivity|].
        constructor; [exact I|constructor].
    + rewrite open_loop_opened by exact Hfd. exists []. rewrite app_nil_r.
      split; [reflexivity|constructor].
Qed.

Lemma open_or_abort_tail (base stop : Z) (t : list action) :
  Forall open_or_abort t -> Forall (asks_for_tail base stop) t.
Proof.
  apply Forall_impl. intros a Ha. destruct a; try exact I; contradiction.
Qed.

Lemma open_or_abort_reads (d : Z) (t : list action) :
  Forall open_or_abort t -> Forall (reads_from d) t.
Proof.
  apply Forall_impl. intros a Ha. destruct a; try exact I; contradiction.
Qed.

Lemma posix_randombytes_calls (sc : script) (out L : Z) (st : process) :
  exists t d,
    outcome_trace (Posix.randombytes sc out L st) = trace st ++ t /\
    Forall (asks_for_tail out (out + L)) t /\
    d <> -1 /\ Forall (reads_from d) t /\
    match Posix.randombytes sc out L st with
    | Returned (st', _) => fd st' = d
    | _ => True
    end.
Proof.
  unfold Posix.randombytes.
  destruct (open_loop_actions sc st) as (t0 & Ht0 & Hf0).
  destruct (Posix.open_loop sc st) as [[st1 sc1]|t1|t1] eqn:E.
  - cbn [outcome_trace] in Ht0.
    destruct (open_loop_returned _ _ _ _ E) as (_ & _ & _ & Hfd).
    destruct (read_loop_tail sc1 out (out + L) out L st1)
      as (t & Ht & Hf & Hr); [lia|reflexivity|].
    destruct (read_loop_trace sc1 out L st1) as (t' & _ & _ & _ & _ & Hm).
    exists (t0 ++ t), (fd st1). split; [|split; [|split; [|split]]].
    + rewrite Ht, Ht0, app_assoc. reflexivity.
    + apply Forall_app. split; [apply open_or_abort_tail; exact Hf0|exact Hf].
    + exact Hfd.
    + apply Forall_app.
      split; [apply open_or_abort_reads; exact Hf0|exact Hr].
    + destruct (Posix.read_loop sc1 out L st1) as [[st' rest]|t2|t2];
        [exact Hm|exact I|exact I].
  - exists t0, 0. cbn [outcome_trace] in *. split; [exact Ht0|].
    split; [apply open_or_abort_tail; exact Hf0|].
    split; [lia|]. split; [apply open_or_abort_reads; exact Hf0|exact I].
  - exists t0, 0. cbn [outcome_trace] in *. split; [exact Ht0|].
    split; [apply open_or_abort_tail; exact Hf0|].
    split; [lia|]. split; [apply open_or_abort_reads; exact Hf0|exact I].
Qed.


(** X6.  Device file: all [read] calls of a fill are made on one descriptor,
    which is not -1 (no [read] happens before [open] has succeeded), and a fill
    that returns leaves exactly that descriptor in [fd]. *)
Theorem reads_use_the_opened_descriptor (sc : script) (out L : Z)
  (st : process) :
  exists t d,
    outcome_trace (Posix.randombytes sc out L st) = trace st ++ t /\
    d <> -1 /\
    Forall (reads_from d) t /\
    match Posix.randombytes sc out L st with
    | Returned (st', _) => fd st' = d
    | _ => True
    end.
Proof.
  destruct (posix_randombytes_calls sc out L st)
    as (t & d & Ht & _ & Hd & Hr & Hm).
  exists t, d. repeat split; assumption.
Qed.

(** ** Signal interruptions do not matter *)

Lemma drop_eintr_eintr (sc : script) :
  drop_eintr (KFail EINTR :: sc) = drop_eintr sc.
Proof. reflexivity. Qed.

Lemma drop_eintr_error (en : Z) (sc : script) :
  en <> EINTR -> drop_eintr (KFail en :: sc) = KFail en :: drop_eintr sc.
Proof.
  intros H. unfold drop_eintr. cbn [filter is_eintr].
  replace (en =? EINTR) with false by (symmetry; apply Z.eqb_neq; exact H).
  reflexivity.
Qed.

Lemma drop_eintr_data (n : N) (data : Z -> Z) (sc : script) :
  drop_eintr (KDone n data :: sc) = KDone n data :: drop_eintr sc.
Proof. reflexivity. Qed.

Lemma same_data_deliver (a len : Z) (src : Z -> Z) (act1 act2 : action)
  (st1 st2 : process) :
  same_data st1 st2 ->
  same_data (emit act1 (deliver a len src st1))
    (emit act2 (deliver a len src st2)).
Proof.
  intros (Hh & Hw & Hf & Hr). unfold same_data. cbn.
  rewrite Hh, Hw. auto.
Qed.

Lemma same_data_retry (act : action) (st1 st2 : process) :
  same_data st1 st2 -> same_data (emit act (set_errno EINTR st1)) st2.
Proof. intros H. exact H. Qed.

Lemma linux_drop_eintr (sc : script) :
  forall out L st1 st2,
    same_data st1 st2 ->
    same_result (Linux.randombytes sc out L st1)
      (Linux.randombytes (drop_eintr sc) out L st2).
Proof.
  induction sc as [|e sc IH]; intros out L st1 st2 Hsd.
  - cbn. destruct (0 <? L); cbn; auto.
  - destruct (Z.ltb_spec 0 L) as [Hlt|Hge].
    + destruct e as [en|n data].
      * destruct (Z.eq_dec en EINTR) as [->|Hne].
        -- rewrite linux_loop_eintr, drop_eintr_eintr by exact Hlt.
           apply IH. apply same_data_retry. exact Hsd.
        -- rewrite drop_eintr_error by exact Hne.
           rewrite !linux_loop_error by assumption. exact I.
      * rewrite drop_eintr_data, !linux_loop_data by exact Hlt.
        apply IH. destruct Hsd as (Hh & Hw & Hf & Hr).
        apply same_data_deliver. repeat split; assumption.
    + rewrite !linux_loop_done by lia. cbn. auto.
Qed.

Lemma read_loop_drop_eintr (sc : script) :
  forall out L st1 st2,
    same_data st1 st2 ->
    same_result (Posix.read_loop sc out L st1)
      (Posix.read_loop (drop_eintr sc) out L st2).
Proof.
  induction sc as [|e sc IH]; intros out L st1 st2 Hsd.
  - cbn. destruct (0 <? L); cbn; auto.
  - destruct (Z.ltb_spec 0 L) as [Hlt|Hge].
    + destruct e as [en|n data].
      * destruct (Z.eq_dec en EINTR) as [->|Hne].
        -- rewrite read_loop_eintr, drop_eintr_eintr by exact Hlt.
           apply IH. apply same_data_retry. exact Hsd.
        -- rewrite drop_eintr_error by exact Hne.
           rewrite !read_loop_error by assumption. exact I.
      * rewrite drop_eintr_data, !read_loop_data by exact Hlt.
        apply IH. apply same_data_deliver. exact Hsd.
    + rewrite !read_loop_done by lia. cbn. auto.
Qed.

Lemma open_loop_drop_eintr (sc : script) :
  forall st1 st2,
    same_data st1 st2 ->
    same_result (Posix.open_loop sc st1)
      (Posix.open_loop (drop_eintr sc) st2).
Proof.
  induction sc as [|e sc IH]; intros st1 st2 Hsd.
  - pose proof Hsd as (_ & _ & Hf & _). cbn. rewrite <- Hf.
    destruct (fd st1 =? -1); cbn; auto.
  - pose proof Hsd as (Hh & Hw & Hf & Hr).
    destruct (Z.eq_dec (fd st1) (-1)) as [Hfd|Hfd].
    + assert (Hfd2 : fd st2 = -1) by congruence.
      destruct e as [en|n data].
      * destruct (Z.eq_dec en EINTR) as [->|Hne].
        -- rewrite open_loop_eintr, drop_eintr_eintr by exact Hfd.
           apply IH. unfold same_data. cbn. rewrite Hfd2. auto.
        -- rewrite drop_eintr_error by exact Hne.
           rewrite !open_loop_error by assumption. exact I.
      * rewrite drop_eintr_data, !open_loop_ok by assumption.
        cbn. unfold same_data. cbn. auto.
    + rewrite !open_loop_opened by congruence. cbn. auto.
Qed.

(** X7.  getrandom backend: a run and the run on the same answers without
    the signal interruptions end the same way; when they return, memory and
    write log are the same and the same answers are left. *)
Theorem getrandom_ignores_interruptions (sc : script) (out L : Z)
  (st : process) :
  same_result (Linux.randombytes sc out L st)
    (Linux.randombytes (drop_eintr sc) out L st).
Proof.
  apply linux_drop_eintr. repeat split.
Qed.

(** X8.  Device-file backend: a run and the run on the same answers without
    the signal interruptions end the same way, for the open loop and the
    read loop together; when they return, memory, write log and the stored
    descriptor are the same and the same answers are left. *)
Theorem device_file_ignores_interruptions (sc : script) (out L : Z)
  (st : process) :
  same_result (Posix.randombytes sc out L st)
    (Posix.randombytes (drop_eintr sc) out L st).
Proof.
  unfold Posix.randombytes.
  assert (Hsd : same_data st st) by (repeat split).
  pose proof (open_loop_drop_eintr sc st st Hsd) as Ho.
  destruct (Posix.open_loop sc st) as [[s1 r1]|t1|t1],
    (Posix.open_loop (drop_eintr sc) st) as [[s2 r2]|t2|t2];
    cbn in Ho; try contradiction; try exact I.
  destruct Ho as (Hs & ->). apply read_loop_drop_eintr. exact Hs.
Qed.

(** ** Platform crypto service: the calls of a fill *)

Lemma chunk_plan_nil (out : Z) : chunk_plan out 0 = [].
Proof. reflexivity. Qed.

Lemma chunk_plan_step (out L : Z) :
  0 < L ->
  chunk_plan out L
  = (Win.chunk_len L, out)
      :: chunk_plan (out + Win.chunk_len L) (L - Win.chunk_len L).
Proof.
  intros HL. unfold chunk_plan.
  pose proof (chunk_len_range L HL) as Hck.
  rewrite (chunk_count_step L HL).
  assert (Hq : 0 <= (L - Win.chunk_len L + 1048575) / 1048576)
    by (apply Z.div_pos; lia).
  rewrite Z2Nat.inj_add by lia.
  change (Z.to_nat 1) with 1%nat. cbn [Nat.add seq map].
  f_equal.
  - f_equal; [|lia]. unfold Win.chunk_len.
    destruct (Z.ltb_spec 1048576 L); lia.
  - rewrite <- seq_shift, map_map.
    unfold Win.chunk_len in *.
    destruct (Z.ltb_spec 1048576 L) as [Hbig|Hsmall].
    + apply map_ext. intros j. f_equal; [f_equal|]; lia.
    + replace (L - L + 1048575) with 1048575 by lia.
      rewrite Z.div_small by lia. reflexivity.
Qed.

Lemma win_loop_plan (sc : script) :
  forall out L st st' rest,
    0 <= L ->
    Win.gen_loop sc out L st = Returned (st', rest) ->
    trace st' = trace st ++ map gen_ok (chunk_plan out L) /\
    writes st'
    = writes st ++ map (fun c => (snd c, fst c)) (chunk_plan out L).
Proof.
  induction sc as [|e sc IH]; intros out L st st' rest HL H.
  - destruct (Z.ltb_spec 0 L) as [Hlt|Hge].
    + simpl in H. replace (0 <? L) with true in H
        by (symmetry; apply Z.ltb_lt; lia). discriminate.
    + rewrite win_loop_done in H by lia. injection H as <- _.
      replace L with 0 by lia. rewrite chunk_plan_nil. cbn [map].
      rewrite !app_nil_r. split; reflexivity.
  - destruct (Z.ltb_spec 0 L) as [Hlt|Hge].
    + pose proof (chunk_len_range L Hlt) as Hck.
      destruct e as [en|n data].
      * rewrite win_loop_fail in H by exact Hlt. discriminate.
      * rewrite win_loop_ok in H by exact Hlt.
        apply IH in H; [|lia]. destruct H as (Ht & Hw).
        rewrite (chunk_plan_step out L Hlt). cbn [map fst snd]. split.
        -- rewrite Ht. cbn [emit deliver trace]. rewrite <- app_assoc.
           reflexivity.
        -- rewrite Hw. cbn [emit deliver writes]. rewrite <- app_assoc.
           reflexivity.
    + rewrite win_loop_done in H by lia. injection H as <- _.
      replace L with 0 by lia. rewrite chunk_plan_nil. cbn [map].
      rewrite !app_nil_r. split; reflexivity.
Qed.

Lemma win_randombytes_inv (sc : script) (out L : Z) (st st' : process)
  (rest : script) :
  Win.randombytes sc out L st = Returned (st', rest) ->
  exists n0 d0 sc1 st2 n1 d1,
    sc = KDone n0 d0 :: sc1 /\
    Win.gen_loop sc1 out L (emit (CryptAcquireContext_call true) st)
    = Returned (st2, KDone n1 d1 :: rest) /\
    st' = emit (CryptReleaseContext_call true) st2.
Proof.
  unfold Win.randombytes.
  destruct sc as [|[en|n0 d0] sc1]; [discriminate|discriminate|].
  cbn [Win.CryptAcquireContext negb].
  destruct (Win.gen_loop sc1 out L (emit (CryptAcquireContext_call true) st))
    as [[st2 sc2]|t|t] eqn:E; [|discriminate|discriminate].
  destruct sc2 as [|[en'|n1 d1] sc3]; [discriminate|discriminate|].
  cbn [Win.CryptReleaseContext negb]. intros H. injection H as <- <-.
  exists n0, d0, sc1, st2, n1, d1.
  split; [reflexivity|]. split; [exact E|reflexivity].
Qed.

(** X9.  A fill of [L] bytes that returns has made exactly these calls, in this
    order: one successful [CryptAcquireContext]; for [j = 0, 1, ...] below
    [ceil(L / 1048576)] one successful [CryptGenRandom] for
    [min(1048576, L - j * 1048576)] bytes at [out + j * 1048576]; one
    successful [CryptReleaseContext].  The destination was written by these
    chunks and nothing else. *)
Theorem crypto_service_call_sequence (sc : script) (out L : Z)
  (st st' : process) (rest : script) (HL : 0 <= L)
  (Hret : Win.randombytes sc out L st = Returned (st', rest)) :
  trace st'
  = trace st
      ++ CryptAcquireContext_call true
      :: map (fun j =>
                CryptGenRandom_call
                  (Z.min 1048576 (L - Z.of_nat j * 1048576))
                  (out + Z.of_nat j * 1048576) true)
           (seq 0 (Z.to_nat ((L + 1048575) / 1048576)))
      ++ [CryptReleaseContext_call true]
  /\ writes st'
     = writes st
         ++ map (fun j => (out + Z.of_nat j * 1048576,
                           Z.min 1048576 (L - Z.of_nat j * 1048576)))
              (seq 0 (Z.to_nat ((L + 1048575) / 1048576))).
Proof.
  destruct (win_randombytes_inv _ _ _ _ _ _ Hret)
    as (n0 & d0 & sc1 & st2 & n1 & d1 & -> & Hloop & ->).
  destruct (win_loop_plan _ _ _ _ _ _ HL Hloop) as (Ht & Hw).
  cbn [emit trace writes]. rewrite Ht, Hw. cbn [emit trace writes].
  unfold chunk_plan. rewrite !map_map. cbn [fst snd gen_ok].
  split; [|reflexivity].
  rewrite <- !app_assoc. reflexivity.
Qed.

Lemma crypto_service_call_sequence_witness :
  0 <= 2097153 /\
  Win.randombytes
    [KDone 0 (fun _ => 1); KDone 0 (fun _ => 2); KDone 0 (fun _ => 3);
     KDone 0 (fun _ => 4); KDone 0 (fun _ => 5)]
    64 2097153 initial_process
  = Returned
      (emit (CryptReleaseContext_call true)
         (emit (CryptGenRandom_call 1 2097216 true)
            (deliver 2097216 1 (fun _ => 4)
               (emit (CryptGenRandom_call 1048576 1048640 true)
                  (deliver 1048640 1048576 (fun _ => 3)
                     (emit (CryptGenRandom_call 1048576 64 true)
                        (deliver 64 1048576 (fun _ => 2)
                           (emit (CryptAcquireContext_call true)
                              initial_process))))))), [])
  /\ writes
       (emit (CryptReleaseContext_call true)
          (emit (CryptGenRandom_call 1 2097216 true)
             (deliver 2097216 1 (fun _ => 4)
                (emit (CryptGenRandom_call 1048576 1048640 true)
                   (deliver 1048640 1048576 (fun _ => 3)
                      (emit (CryptGenRandom_call 1048576 64 true)
                         (deliver 64 1048576 (fun _ => 2)
                            (emit (CryptAcquireContext_call true)
                               initial_process))))))))
     = writes initial_process
         ++ map (fun j => (64 + Z.of_nat j * 1048576,
                           Z.min 1048576 (2097153 - Z.of_nat j * 1048576)))
              (seq 0 (Z.to_nat ((2097153 + 1048575) / 1048576))).
Proof.
  split; [lia|]. split; [reflexivity|].
  exact (proj2 (crypto_service_call_sequence
                  [KDone 0 (fun _ => 1); KDone 0 (fun _ => 2);
                   KDone 0 (fun _ => 3); KDone 0 (fun _ => 4);
                   KDone 0 (fun _ => 5)]
                  64 2097153 initial_process _ [] ltac:(lia) eq_refl)).
Defined.

Lemma win_loop_shape (sc : script) :
  forall out L st,
    exists cs,
      match Win.gen_loop sc out L st with
      | Returned (st', _) => trace st' = trace st ++ map gen_ok cs
      | Blocked t => t = trace st ++ map gen_ok cs
      | Aborted t =>
          exists l a,
            t = trace st ++ map gen_ok cs
                  ++ [CryptGenRandom_call l a false; abort_call]
      end.
Proof.
  induction sc as [|e sc IH]; intros out L st.
  - exists []. simpl. destruct (0 <? L); rewrite app_nil_r; reflexivity.
  - destruct (Z.ltb_spec 0 L) as [Hlt|Hge].
    + destruct e as [en|n data].
      * rewrite win_loop_fail by exact Hlt. exists [].
        exists (Win.chunk_len L), out. reflexivity.
      * rewrite win_loop_ok by exact Hlt.
        destruct (IH (out + Win.chunk_len L) (L - Win.chunk_len L)
                    (emit (CryptGenRandom_call (Win.chunk_len L) out true)
                       (deliver out (Win.chunk_len L) data st)))
          as (cs & Hm).
        exists ((Win.chunk_len L, out) :: cs).
        destruct (Win.gen_loop sc _ _ _) as [[st' rest]|t|t];
          cbn [emit deliver trace] in Hm; cbn [map].
        -- rewrite Hm, <- app_assoc. reflexivity.
        -- destruct Hm as (l & a & ->). exists l, a.
           rewrite <- app_assoc. reflexivity.
        -- rewrite Hm, <- app_assoc. reflexivity.
    + rewrite win_loop_done by lia. exists []. rewrite app_nil_r.
      reflexivity.
Qed.

(** X10.  Order of the service calls, however the fill ends.  Nothing is
    generated before the context was acquired; a failed acquisition aborts
    with no further call; every generation call before the last one
    succeeded, and a failed one is followed by the abort only (the context
    is not released); the context is released only after all chunks were
    delivered, and a failed release aborts although the destination is
    complete. *)
Theorem crypto_service_call_order (sc : script) (out L : Z) (st : process)
  (HL : 0 <= L) :
  match Win.randombytes sc out L st with
  | Returned (st', _) =>
      trace st'
      = trace st
          ++ CryptAcquireContext_call true
          :: map gen_ok (chunk_plan out L)
          ++ [CryptReleaseContext_call true]
  | Aborted t =>
      t = trace st ++ [CryptAcquireContext_call false; abort_call]
      \/ (exists cs l a,
            t = trace st
                  ++ CryptAcquireContext_call true
                  :: map gen_ok cs
                  ++ [CryptGenRandom_call l a false; abort_call])
      \/ t = trace st
               ++ CryptAcquireContext_call true
               :: map gen_ok (chunk_plan out L)
               ++ [CryptReleaseContext_call false; abort_call]
  | Blocked t =>
      t = trace st
      \/ exists cs,
           t = trace st ++ CryptAcquireContext_call true :: map gen_ok cs
  end.
Proof.
  unfold Win.randombytes.
  destruct sc as [|[en|n0 d0] sc1].
  - left. reflexivity.
  - left. cbn. rewrite <- app_assoc. reflexivity.
  - cbn [Win.CryptAcquireContext negb].
    set (st1 := emit (CryptAcquireContext_call true) st).
    destruct (win_loop_shape sc1 out L st1) as (cs & Hm).
    destruct (Win.gen_loop sc1 out L st1) as [[st2 sc2]|t|t] eqn:E.
    + destruct (win_loop_plan _ _ _ _ _ _ HL E) as (Ht & _).
      unfold st1 in Ht. cbn [emit trace] in Ht.
      rewrite <- app_assoc in Ht. cbn [app] in Ht.
      destruct sc2 as [|[en'|n1 d1] sc3].
      * right. exists (chunk_plan out L). exact Ht.
      * right. right. cbn [Win.CryptReleaseContext negb emit trace].
        rewrite Ht, <- !app_assoc. reflexivity.
      * cbn [Win.CryptReleaseContext negb emit trace].
        rewrite Ht, <- !app_assoc. reflexivity.
    + destruct Hm as (l & a & ->). right. left. exists cs, l, a.
      unfold st1. cbn [emit trace]. rewrite <- app_assoc. reflexivity.
    + right. exists cs. rewrite Hm. unfold st1. cbn [emit trace].
      rewrite <- app_assoc. reflexivity.
Qed.

Lemma crypto_service_call_order_witness :
  0 <= 5 /\
  ([CryptAcquireContext_call true; CryptGenRandom_call 5 64 true;
    CryptReleaseContext_call false; abort_call]
   = trace initial_process ++ [CryptAcquireContext_call false; abort_call]
   \/ (exists cs l a,
         [CryptAcquireContext_call true; CryptGenRandom_call 5 64 true;
          CryptReleaseContext_call false; abort_call]
         = trace initial_process
             ++ CryptAcquireContext_call true
             :: map gen_ok cs
             ++ [CryptGenRandom_call l a false; abort_call])
   \/ [CryptAcquireContext_call true; CryptGenRandom_call 5 64 true;
       CryptReleaseContext_call false; abort_call]
      = trace initial_process
          ++ CryptAcquireContext_call true
          :: map gen_ok (chunk_plan 64 5)
          ++ [CryptReleaseContext_call false; abort_call]).
Proof.
  split; [lia|].
  exact (crypto_service_call_order
           [KDone 0 (fun _ => 1); KDone 0 (fun j => j); KFail 6]
           64 5 initial_process ltac:(lia)).
Defined.

(** ** Host bridge: the 64-bit signature *)

(** X11.  With the 32-bit [size_t] of the wasm32 target, the 64-bit length is
    reduced modulo 2^32 before it reaches the host bridge: lengths that
    differ by a multiple of 2^32 are served alike (status 0 included).  For
    lengths below 2^32 the call does what the [void] signature does and adds
    the status 0. *)
Theorem kyber_length_is_truncated (h : host) (x xlen k : Z) (st : process) :
  Kyber.randombytes h x (xlen + k * 2 ^ 32) st = Kyber.randombytes h x xlen st
  /\ (0 <= xlen < 2 ^ 32 ->
      Kyber.randombytes h x xlen st
      = match Wasm.randombytes h x xlen st with
        | Returned st' => Returned (0, st')
        | Aborted t => Aborted t
        | Blocked t => Blocked t
        end).
Proof.
  unfold Kyber.randombytes, Wasm.randombytes, Kyber.size_t_of_ull. split.
  - rewrite Z.mod_add by (change (2 ^ 32) with 4294967296; lia).
    reflexivity.
  - intros Hx. rewrite Z.mod_small by exact Hx. reflexivity.
Qed.

Lemma kyber_length_is_truncated_witness :
  0 <= 4 < 2 ^ 32 /\
  Kyber.randombytes (mkHost (Some (fun _ => Normal (fun j => j))) None None)
    8 4 initial_process
  = match
      Wasm.randombytes (mkHost (Some (fun _ => Normal (fun j => j))) None None)
        8 4 initial_process
    with
    | Returned st' => Returned (0, st')
    | Aborted t => Aborted t
    | Blocked t => Blocked t
    end.
Proof.
  split; [change (2 ^ 32) with 4294967296; lia|].
  apply (proj2 (kyber_length_is_truncated
                  (mkHost (Some (fun _ => Normal (fun j => j))) None None)
                  8 4 0 initial_process)).
  change (2 ^ 32) with 4294967296. lia.
Defined.
